(** * Line Learner: the practice session engine of [src/index.tsx]

    A shallow embedding of the script parser, the pronunciation rewrite,
    the accuracy scorer, the cursor advance with its loop range, the
    settings persistence and the recognition callbacks, followed by the
    properties the specification states about them.

    Conventions of the embedding.
    - A JavaScript string is a [list ascii] ([str]); the alphabet of the
      model is 7-bit ASCII.  Characters above 127 are carried through
      unchanged and count as neither white space, word characters nor
      letters with a case.
    - A JavaScript number that the code uses as an index is a [Z]; [NaN] is
      [None] in an [option Z], and every comparison with it is false.
    - A regular expression literal is a [regex] term, run by a backtracking
      matcher that tries alternatives in the order the language prescribes
      (greedy: longest first; lazy: shortest first). *)

From Stdlib Require Import String Ascii List ZArith QArith Bool Lia Arith.
Import ListNotations.
Local Close Scope Q_scope.

(* ================================================================== *)
(** * Part I. Definitions                                              *)
(* ================================================================== *)

(** ** JavaScript strings *)

Module Js.

Definition str := list ascii.

(** A string literal of the source. *)
Definition lit (s : string) : str := list_ascii_of_string s.

Definition code (c : ascii) : N := N_of_ascii c.

Definition in_range (lo hi : N) (c : ascii) : bool :=
  ((lo <=? code c) && (code c <=? hi))%N.

(** [\s]: tab, line feed, vertical tab, form feed, carriage return, space. *)
Definition isSpace (c : ascii) : bool :=
  in_range 9 13 c || (code c =? 32)%N.

(** The characters that [.] refuses: line feed and carriage return. *)
Definition isLineTerminator (c : ascii) : bool :=
  (code c =? 10)%N || (code c =? 13)%N.

Definition isDigit (c : ascii) : bool := in_range 48 57 c.
Definition isUpper (c : ascii) : bool := in_range 65 90 c.
Definition isLower (c : ascii) : bool := in_range 97 122 c.

(** [\w] is [[A-Za-z0-9_]]. *)
Definition isWordChar (c : ascii) : bool :=
  isUpper c || isLower c || isDigit c || (code c =? 95)%N.

(** [.] without the [s] flag. *)
Definition isDot (c : ascii) : bool := negb (isLineTerminator c).

Definition isChar (a : ascii) (c : ascii) : bool := Ascii.eqb c a.

Definition toUpper (c : ascii) : ascii :=
  if isLower c then ascii_of_N (code c - 32) else c.

Definition toLower (c : ascii) : ascii :=
  if isUpper c then ascii_of_N (code c + 32) else c.

Definition toUpperCase (s : str) : str := map toUpper s.
Definition toLowerCase (s : str) : str := map toLower s.

Fixpoint str_eqb (a b : str) : bool :=
  match a, b with
  | [], [] => true
  | x :: a', y :: b' => Ascii.eqb x y && str_eqb a' b'
  | _, _ => false
  end.

(** A string is truthy unless it is empty. *)
Definition truthy (s : str) : bool :=
  match s with [] => false | _ :: _ => true end.

(** [a || b] on strings. *)
Definition or_else (a b : str) : str := if truthy a then a else b.

Fixpoint dropWhile (p : ascii -> bool) (s : str) : str :=
  match s with
  | [] => []
  | c :: t => if p c then dropWhile p t else s
  end.

Definition trimStart (s : str) : str := dropWhile isSpace s.
Definition trimEnd (s : str) : str := rev (dropWhile isSpace (rev s)).
Definition trim (s : str) : str := trimEnd (trimStart s).

Definition includes (a : ascii) (s : str) : bool := existsb (isChar a) s.

(** [s.split(sep)] for a one-character separator: the first piece and the
    pieces after it (the array is never empty). *)
Fixpoint split (sep : ascii) (s : str) : str * list str :=
  match s with
  | [] => ([], [])
  | c :: t =>
      let (h, r) := split sep t in
      if Ascii.eqb c sep then ([], h :: r) else (c :: h, r)
  end.

Definition pieces (p : str * list str) : list str := fst p :: snd p.

(** [parts.join(sep)]. *)
Fixpoint join (sep : ascii) (parts : list str) : str :=
  match parts with
  | [] => []
  | [p] => p
  | p :: rest => p ++ sep :: join sep rest
  end.

(** [arr.includes(x)] on an array of strings. *)
Definition arr_includes (arr : list str) (x : str) : bool :=
  existsb (str_eqb x) arr.

(** [new Set(iterable)]: a set keeps its members in insertion order, and
    adding a member it already has changes nothing. *)
Definition set_add (s : list str) (x : str) : list str :=
  if arr_includes s x then s else s ++ [x].

Definition new_Set (arr : list str) : list str := fold_left set_add arr [].

End Js.

(** ** Regular expressions *)

Module Re.
Import Js.

Inductive regex : Type :=
| Chr (p : ascii -> bool)                (* one character of a class *)
| Star (greedy : bool) (p : ascii -> bool) (* class* and class*? *)
| Cat (r1 r2 : regex)
| Opt (r : regex)                        (* (?: r )? *)
| Group (n : nat) (r : regex)            (* the n-th capturing group *)
| Bol                                    (* ^ *)
| Eol                                    (* $ *)
| WordB.                                 (* \b *)

(** [class+] *)
Definition Plus (p : ascii -> bool) : regex := Cat (Chr p) (Star true p).

Fixpoint Seq (rs : list regex) : regex :=
  match rs with
  | [] => Star true (fun _ => false)
  | [r] => r
  | r :: rest => Cat r (Seq rest)
  end.

(** The matcher state: the text already passed (latest character first),
    the text ahead, and the captures made so far. *)
Record mstate : Type := MState {
  before : str;
  after : str;
  caps : list (nat * str)
}.

Definition isWordAt (s : str) : bool :=
  match s with [] => false | c :: _ => isWordChar c end.

(** A word boundary lies between [bef] and [aft] when exactly one side
    has a word character next to it. *)
Definition boundary (bef aft : str) : bool :=
  xorb (isWordAt bef) (isWordAt aft).

Definition at_boundary (st : mstate) : bool :=
  boundary (before st) (after st).

(** The text consumed between two states of one run. *)
Definition consumed (st st' : mstate) : str :=
  rev (firstn (length (before st') - length (before st)) (before st')).

Definition set_cap (n : nat) (s : str) (st : mstate) : mstate :=
  MState (before st) (after st) ((n, s) :: caps st).

Fixpoint star_run (greedy : bool) (p : ascii -> bool)
    (k : mstate -> option mstate) (bef : str) (cs : list (nat * str))
    (aft : str) : option mstate :=
  match aft with
  | [] => k (MState bef [] cs)
  | c :: t =>
      if p c then
        if greedy then
          match star_run greedy p k (c :: bef) cs t with
          | Some r => Some r
          | None => k (MState bef aft cs)
          end
        else
          match k (MState bef aft cs) with
          | Some r => Some r
          | None => star_run greedy p k (c :: bef) cs t
          end
      else k (MState bef aft cs)
  end.

(** [run r k st]: match [r] at [st], then the rest of the pattern [k];
    [None] when every alternative fails. *)
Fixpoint run (r : regex) (k : mstate -> option mstate) (st : mstate)
    : option mstate :=
  match r with
  | Chr p =>
      match after st with
      | c :: t => if p c then k (MState (c :: before st) t (caps st)) else None
      | [] => None
      end
  | Star g p => star_run g p k (before st) (caps st) (after st)
  | Cat r1 r2 => run r1 (run r2 k) st
  | Opt r' =>
      match run r' k st with
      | Some x => Some x
      | None => k st
      end
  | Group n r' => run r' (fun st' => k (set_cap n (consumed st st') st')) st
  | Bol => match before st with [] => k st | _ :: _ => None end
  | Eol => match after st with [] => k st | _ :: _ => None end
  | WordB => if at_boundary st then k st else None
  end.

(** A run of word characters. *)
Definition word_run (w : str) : Prop :=
  Forall (fun c => isWordChar c = true) w.

Definition starts_with (p : ascii -> bool) (s : str) : bool :=
  match s with [] => false | c :: _ => p c end.

(** The text [s] does not go on with a character of the class [p]. *)
Definition stops (p : ascii -> bool) (s : str) : Prop :=
  starts_with p s = false.

(** A successful match: the text before it (latest character first), the
    matched text, the text after it, and the captures. *)
Record result : Type := Result {
  preceding : str;
  matched : str;
  following : str;
  groups : list (nat * str)
}.

Definition match_at (re : regex) (bef aft : str) : option result :=
  match run re Some (MState bef aft []) with
  | Some st' =>
      Some (Result bef (consumed (MState bef aft []) st') (after st') (caps st'))
  | None => None
  end.

(** [re.exec(s)] from the start of [s]: the leftmost position where the
    pattern matches. *)
Fixpoint exec_from (re : regex) (bef aft : str) : option result :=
  match match_at re bef aft with
  | Some m => Some m
  | None =>
      match aft with
      | [] => None
      | c :: t => exec_from re (c :: bef) t
      end
  end.

(** [s.match(re)] for a pattern without the [g] flag. *)
Definition str_match (re : regex) (s : str) : option result :=
  exec_from re [] s.

(** [m[n]]: [None] is [undefined]. *)
Fixpoint assoc (n : nat) (l : list (nat * str)) : option str :=
  match l with
  | [] => None
  | (m, s) :: rest => if Nat.eqb m n then Some s else assoc n rest
  end.

Definition group (n : nat) (m : result) : option str := assoc n (groups m).

(** The replacement text of [String.prototype.replace] for a pattern
    without capturing groups: [$$], [$&], [$`] and [$'] are expanded and
    every other character stands for itself. *)
Fixpoint substitution (repl : str) (m : result) : str :=
  match repl with
  | [] => []
  | c :: t =>
      if isChar "$" c then
        match t with
        | d :: t' =>
            if isChar "$" d then d :: substitution t' m
            else if isChar "&" d then matched m ++ substitution t' m
            else if isChar "`" d then rev (preceding m) ++ substitution t' m
            else if isChar "'" d then following m ++ substitution t' m
            else c :: substitution t m
        | [] => [c]
        end
      else c :: substitution t m
  end.

(** [s.replace(re, repl)] for a pattern with the [g] flag.  [skip] counts
    the characters of the current match still to pass over; after an empty
    match the search resumes one character further. *)
Fixpoint replace_go (re : regex) (repl : str) (bef aft : str) (skip : nat)
    : str :=
  match aft with
  | [] =>
      match skip with
      | O =>
          match match_at re bef [] with
          | Some m => substitution repl m
          | None => []
          end
      | S _ => []
      end
  | c :: t =>
      match skip with
      | S n => replace_go re repl (c :: bef) t n
      | O =>
          match match_at re bef aft with
          | Some m =>
              substitution repl m ++
              match length (matched m) with
              | O => c :: replace_go re repl (c :: bef) t 0
              | S n => replace_go re repl (c :: bef) t n
              end
          | None => c :: replace_go re repl (c :: bef) t 0
          end
      end
  end.

Definition replace_all (re : regex) (repl : str) (s : str) : str :=
  replace_go re repl [] s 0.

(** [s.split(re)]: [cur] is the piece being collected (latest character
    first).  A match that is empty at the start of a piece is passed over. *)
Fixpoint split_go (re : regex) (bef aft : str) (skip : nat) (cur : str)
    : list str :=
  match aft with
  | [] => [rev cur]
  | c :: t =>
      match skip with
      | S n => split_go re (c :: bef) t n cur
      | O =>
          match match_at re bef aft with
          | Some m =>
              match length (matched m), cur with
              | O, [] => split_go re (c :: bef) t 0 [c]
              | O, _ :: _ => rev cur :: split_go re (c :: bef) t 0 [c]
              | S n, _ => rev cur :: split_go re (c :: bef) t n []
              end
          | None => split_go re (c :: bef) t 0 (c :: cur)
          end
      end
  end.

Definition split_re (re : regex) (s : str) : list str :=
  match s with
  | [] => match match_at re [] [] with Some _ => [] | None => [[]] end
  | _ :: _ => split_go re [] s 0 []
  end.

(** The pattern [r] has no capturing group numbered [n]. *)
Fixpoint no_group (n : nat) (r : regex) : bool :=
  match r with
  | Cat r1 r2 => no_group n r1 && no_group n r2
  | Opt r' => no_group n r'
  | Group m r' => negb (Nat.eqb m n) && no_group n r'
  | _ => true
  end.

End Re.

(** ** The application *)

Module LineLearner.
Import Js Re.

Definition LF : ascii := ascii_of_N 10.

(** *** Script parsing (the effect on [script]) *)

Record LineEntry : Type := {
  character : str;
  dialogue : str;
  direction : str
}.

(** The class "[A-Z0-9\s_'-]". *)
Definition isTokenChar (c : ascii) : bool :=
  isUpper c || isDigit c || isSpace c
  || isChar "_" c || isChar "'" c || isChar "-" c.

(** The literal of line 154, term by term: the start anchor; group 1, one
    or more token characters; a colon; white space; optionally an opening
    parenthesis, group 2 (lazy, any characters), a closing parenthesis and
    white space; group 3 (greedy, any characters); the end anchor. *)
Definition lineRegex : regex :=
  Seq [ Bol;
        Group 1 (Plus isTokenChar);
        Chr (isChar ":");
        Star true isSpace;
        Opt (Seq [ Chr (isChar "(");
                   Group 2 (Star false isDot);
                   Chr (isChar ")");
                   Star true isSpace ]);
        Group 3 (Star true isDot);
        Eol ].

(** A line of the shape [TOKEN: (direction) dialogue], with the white
    space after the colon and after the closing parenthesis. *)
Definition structured (tok ws1 dir ws2 dlg : str) : str :=
  tok ++ ":"%char :: ws1 ++ "("%char :: dir ++ ")"%char :: ws2 ++ dlg.

(** [m[n]] where the group always takes part in a match. *)
Definition group_text (n : nat) (m : result) : str :=
  match group n m with Some s => s | None => [] end.

(** The callback of the second [map]. *)
Definition parseLine (line : str) : LineEntry :=
  match str_match lineRegex line with
  | None =>
      let (character, dialogueParts) := split ":" line in
      {| character := toUpperCase (trim character);
         dialogue := trim (join ":" dialogueParts);
         direction := [] |}
  | Some m =>
      {| character := toUpperCase (trim (group_text 1 m));
         direction :=
           or_else (match group 2 m with Some d => trim d | None => [] end) [];
         dialogue := trim (group_text 3 m) |}
  end.

(** [Boolean(entry)]: an object is truthy. *)
Definition Boolean_entry (e : LineEntry) : bool := true.

Definition parsedLines (script : str) : list LineEntry :=
  filter Boolean_entry
    (map parseLine
       (filter (includes ":") (map trim (pieces (split LF script))))).

Definition uniqueCharacters (script : str) : list str :=
  new_Set (map character (parsedLines script)).

(** The value of [selectedCharacter] after the effect, from the roster and
    the value the effect read. *)
Definition reselect (uniqueCharacters : list str) (selectedCharacter : str)
    : str :=
  if (0 <? length uniqueCharacters)
     && negb (arr_includes uniqueCharacters selectedCharacter)
  then nth 0 uniqueCharacters []
  else if length uniqueCharacters =? 0 then []
  else selectedCharacter.

(** The call of [setSelectedCharacter] that ends the effect on [script]:
    its argument, or [None] when the effect makes no call. *)
Definition selectionCall (uniqueCharacters : list str)
    (selectedCharacter : str) : option str :=
  if (0 <? length uniqueCharacters)
     && negb (arr_includes uniqueCharacters selectedCharacter)
  then Some (nth 0 uniqueCharacters [])
  else if length uniqueCharacters =? 0 then Some []
  else None.

(** *** Pronunciations *)

(** [map.set(k, v)]: a key already present keeps its place. *)
Fixpoint map_set (m : list (str * str)) (k v : str) : list (str * str) :=
  match m with
  | [] => [(k, v)]
  | (k', v') :: rest =>
      if str_eqb k' k then (k', v) :: rest else (k', v') :: map_set rest k v
  end.

Definition buildPronunciationMap (pronunciations : str) : list (str * str) :=
  fold_left
    (fun newMap line =>
       let parts := split "=" line in
       if 2 <=? length (pieces parts)
       then map_set newMap (trim (fst parts)) (trim (join "=" (snd parts)))
       else newMap)
    (filter (fun line => truthy (trim line)) (pieces (split LF pronunciations)))
    [].

(** The characters with a meaning of their own in a pattern. *)
Definition isSyntaxChar (c : ascii) : bool :=
  existsb (Ascii.eqb c) (lit "^$\.*+?()[]{}|").

(** A pattern character under the [i] flag. *)
Definition ci (a : ascii) : ascii -> bool :=
  fun c => Ascii.eqb (toUpper c) (toUpper a).

(** The text [s] starts with the characters of [key], up to letter case:
    what the literal part of a key pattern checks at one place. *)
Fixpoint prefix_ci (key s : str) : bool :=
  match key, s with
  | [], _ => true
  | a :: key', c :: t => ci a c && prefix_ci key' t
  | _ :: _, [] => false
  end.

(** "new RegExp(`\\b${w}\\b`, 'gi')".  The key is spliced into the pattern
    unescaped; this model interprets keys made of ordinary characters and
    answers [None] for a key that holds pattern syntax. *)
Definition keyPattern (w : str) : option regex :=
  if existsb isSyntaxChar w then None
  else Some (Seq ([WordB] ++ map (fun a => Chr (ci a)) w ++ [WordB])).

(** The [forEach] of [processLine]: the entries in insertion order, each
    applied to the text the previous ones produced. *)
Definition rewriteDialogue (pronunciationMap : list (str * str))
    (dialogue : str) : option str :=
  fold_left
    (fun dialogueToSpeak '(w, p) =>
       match dialogueToSpeak, keyPattern w with
       | Some d, Some re => Some (replace_all re p d)
       | _, _ => None
       end)
    pronunciationMap (Some dialogue).

(** *** Accuracy *)

Inductive Status : Type := correct | incorrect | missing.

Record WordReport : Type := { word : str; status : Status }.

(** "s.toLowerCase().replace(/[^\w\s]/g, '').split(/\s+/).filter(Boolean)" *)
Definition words (s : str) : list str :=
  filter truthy
    (split_re (Plus isSpace)
       (replace_all (Chr (fun c => negb (isWordChar c || isSpace c))) []
          (toLowerCase s))).

(** [report[i].status = v] *)
Fixpoint set_status (i : nat) (v : Status) (report : list WordReport)
    : list WordReport :=
  match report, i with
  | [], _ => []
  | e :: rest, O => {| word := word e; status := v |} :: rest
  | e :: rest, S i' => e :: set_status i' v rest
  end.

(** The [for] loop, with [n] iterations left. *)
Fixpoint score_loop (n i tIdx : nat) (transcriptWords : list str)
    (report : list WordReport) : list WordReport :=
  match n with
  | O => report
  | S n' =>
      match nth_error report i with
      | Some e =>
          if (tIdx <? length transcriptWords)
             && str_eqb (word e) (nth tIdx transcriptWords [])
          then score_loop n' (S i) (S tIdx) transcriptWords
                 (set_status i correct report)
          else score_loop n' (S i) tIdx transcriptWords
                 (set_status i incorrect report)
      | None => report
      end
  end.

(** An entry of a report, for writing reports down. *)
Definition entry (w : string) (s : Status) : WordReport :=
  {| word := lit w; status := s |}.

(** An entry whose status the loop has assigned. *)
Definition settled (e : WordReport) : Prop :=
  status e = correct \/ status e = incorrect.

Definition calculateAccuracy (original transcript : str) : list WordReport :=
  let originalWords := words original in
  let transcriptWords := words transcript in
  let report :=
    map (fun w => {| word := w; status := missing |}) originalWords in
  score_loop (length report) 0 0 transcriptWords report.

(** *** The cursor *)

Local Open Scope Z_scope.

Definition digit_value (radix : Z) (c : ascii) : option Z :=
  let v :=
    if isDigit c then Some (Z.of_N (code c) - 48)
    else if isLower c then Some (Z.of_N (code c) - 87)
    else if isUpper c then Some (Z.of_N (code c) - 55)
    else None in
  match v with
  | Some d => if d <? radix then Some d else None
  | None => None
  end.

Fixpoint digits (radix : Z) (s : str) (acc : option Z) : option Z :=
  match s with
  | [] => acc
  | c :: t =>
      match digit_value radix c with
      | Some d =>
          digits radix t
            (Some (radix * match acc with Some a => a | None => 0 end + d))
      | None => acc
      end
  end.

(** [parseInt(s)]: leading white space, a sign, a [0x] prefix, then the
    longest run of digits; [None] is [NaN]. *)
Definition parseInt (s : str) : option Z :=
  let s1 := trimStart s in
  let '(sign, s2) :=
    match s1 with
    | c :: t =>
        if isChar "-" c then (-1, t)
        else if isChar "+" c then (1, t) else (1, s1)
    | [] => (1, s1)
    end in
  let '(radix, s3) :=
    match s2 with
    | z :: x :: t =>
        if isChar "0" z && (isChar "x" x || isChar "X" x)
        then (16, t) else (10, s2)
    | _ => (10, s2)
    end in
  option_map (Z.mul sign) (digits radix s3 None).

(** The updater that [advanceLine] hands to [setCurrentLineIndex]. *)
Definition advanceLine (loopStartLine loopEndLine : str) (prev : Z) : Z :=
  let nextIndex := prev + 1 in
  let start :=
    if truthy loopStartLine
    then option_map (fun n => n - 1) (parseInt loopStartLine)
    else Some (-1) in
  let end_ :=
    if truthy loopEndLine then parseInt loopEndLine else Some (-1) in
  match start, end_ with
  | Some s, Some e =>
      if (s >=? 0) && (e >? 0) && (nextIndex >=? e) then s else nextIndex
  | _, _ => nextIndex
  end.

(** [startIdx] of [handleStartPractice]. *)
Definition startIdx (loopStartLine : str) : Z :=
  match parseInt loopStartLine with
  | Some n => if truthy loopStartLine && (n >? 0) then n - 1 else 0
  | None => 0
  end.

(** *** Settings (the load and save effects) *)

Inductive PracticeMode : Type := dialogue_mode | read_along.

Record Settings : Type := {
  script : str;
  pronunciations : str;
  selectedCharacter : str;
  characterVoices : list (str * str);
  speechRate : Q;
  pitch : Q;
  volume : Q;
  selectedLang : str;
  isAccuracyCheckEnabled : bool;
  practiceMode : PracticeMode;
  isRecordAndPlaybackEnabled : bool;
  loopStartLine : str;
  loopEndLine : str
}.

(** A value of the stored JSON object.  [JSON.parse (JSON.stringify v)]
    gives back the tree of [v]; rate, pitch and volume are finite numbers,
    here rationals; [JDict] is the object of voice assignments. *)
Inductive json : Type :=
| JNull
| JBool (b : bool)
| JNum (q : Q)
| JStr (s : str)
| JDict (entries : list (str * str)).

(** The stored object: its properties in order. *)
Definition object : Type := list (string * json).

(** [settings.name]: [None] is [undefined]. *)
Fixpoint get (name : string) (settings : object) : option json :=
  match settings with
  | [] => None
  | (n, v) :: rest => if String.eqb n name then Some v else get name rest
  end.

Definition json_truthy (v : option json) : bool :=
  match v with
  | None | Some JNull => false
  | Some (JBool b) => b
  | Some (JNum q) => negb (Qeq_bool q 0)
  | Some (JStr s) => truthy s
  | Some (JDict _) => true
  end.

(** [v || d] *)
Definition or_default (v : option json) (d : json) : json :=
  match v with
  | Some x => if json_truthy v then x else d
  | None => d
  end.

(** [v ?? d] *)
Definition nullish (v : option json) (d : json) : json :=
  match v with
  | None | Some JNull => d
  | Some x => x
  end.

Definition mode_name (m : PracticeMode) : str :=
  match m with
  | dialogue_mode => lit "dialogue"
  | read_along => lit "read-along"
  end.

(** The state is typed as the component declares it: a stored value of
    another JSON type is outside the model and reads as the empty value of
    the type. *)
Definition as_str (j : json) : str :=
  match j with JStr s => s | _ => [] end.
Definition as_num (j : json) : Q :=
  match j with JNum q => q | _ => 0%Q end.
Definition as_bool (j : json) : bool :=
  match j with JBool b => b | _ => false end.
Definition as_dict (j : json) : list (str * str) :=
  match j with JDict d => d | _ => [] end.
Definition as_mode (j : json) : PracticeMode :=
  match j with
  | JStr s => if str_eqb s (lit "read-along") then read_along else dialogue_mode
  | _ => dialogue_mode
  end.

(** The object that the save effect hands to [JSON.stringify]. *)
Definition stringify (s : Settings) : object :=
       [ ("script", JStr (script s));
         ("pronunciations", JStr (pronunciations s));
         ("selectedCharacter", JStr (selectedCharacter s));
         ("characterVoices", JDict (characterVoices s));
         ("speechRate", JNum (speechRate s));
         ("pitch", JNum (pitch s));
         ("volume", JNum (volume s));
         ("selectedLang", JStr (selectedLang s));
         ("isAccuracyCheckEnabled", JBool (isAccuracyCheckEnabled s));
         ("practiceMode", JStr (mode_name (practiceMode s)));
         ("isRecordAndPlaybackEnabled", JBool (isRecordAndPlaybackEnabled s));
         ("loopStartLine", JStr (loopStartLine s));
         ("loopEndLine", JStr (loopEndLine s)) ]%string.

(** The save effect: [localStorage.setItem(key, JSON.stringify(settings))]. *)
Definition saveSettings (s : Settings) : option object := Some (stringify s).

(** The load effect: the values it hands to the setters, from what
    [localStorage.getItem] returned; with nothing stored it calls no
    setter, and the states keep the values they have ([current]).  These
    are not yet the states a page load ends in: the effect on [script]
    calls [setSelectedCharacter] after this one (see [reloadedSelection]),
    and the effect on the voices goes on to complete [characterVoices]. *)
Definition loadSettings (savedSettings : option object) (current : Settings)
    : Settings :=
  match savedSettings with
  | None => current
  | Some settings =>
      {| script := as_str (or_default (get "script" settings) (JStr []));
         pronunciations :=
           as_str (or_default (get "pronunciations" settings) (JStr []));
         selectedCharacter :=
           as_str (or_default (get "selectedCharacter" settings) (JStr []));
         characterVoices :=
           as_dict (or_default (get "characterVoices" settings) (JDict []));
         speechRate :=
           as_num (or_default (get "speechRate" settings) (JNum 1));
         pitch := as_num (or_default (get "pitch" settings) (JNum 1));
         volume := as_num (or_default (get "volume" settings) (JNum 1));
         selectedLang :=
           as_str (or_default (get "selectedLang" settings)
                     (JStr (lit "en-US")));
         isAccuracyCheckEnabled :=
           as_bool (nullish (get "isAccuracyCheckEnabled" settings)
                      (JBool true));
         practiceMode :=
           as_mode (or_default (get "practiceMode" settings)
                      (JStr (lit "dialogue")));
         isRecordAndPlaybackEnabled :=
           as_bool (nullish (get "isRecordAndPlaybackEnabled" settings)
                      (JBool true));
         loopStartLine :=
           as_str (or_default (get "loopStartLine" settings) (JStr []));
         loopEndLine :=
           as_str (or_default (get "loopEndLine" settings) (JStr [])) |}
  end.

(** *** Analysis text ([handleAnalysis]) *)

(** "response.text.replace(/\n/g, '<br />')" *)
Definition analysisHtml (text : str) : str :=
  replace_all (Chr (isChar LF)) (lit "<br />") text.

(** The initial values of the [useState] calls. *)
Definition defaults : Settings :=
  {| script := [];
     pronunciations := [];
     selectedCharacter := [];
     characterVoices := [];
     speechRate := 1;
     pitch := 1;
     volume := 1;
     selectedLang := lit "en-US";
     isAccuracyCheckEnabled := true;
     practiceMode := dialogue_mode;
     isRecordAndPlaybackEnabled := true;
     loopStartLine := [];
     loopEndLine := [] |}.

(** The selection a page load ends in.  In the first commit the effects
    run in the order they are declared, each with the values of the first
    render, the [useState] defaults: the load effect calls
    [setSelectedCharacter] with the saved name, and the effect on
    [script], which still reads the empty script, calls it after that;
    the last call is the one that counts.  The effect on [script] runs
    once more after the next render if the loaded script is not the one
    of the first render, and reads the selection the first commit left. *)
Definition reloadedSelection (savedSettings : option object) : str :=
  let loaded := loadSettings savedSettings defaults in
  let mounted :=
    match selectionCall (uniqueCharacters (script defaults))
            (selectedCharacter defaults) with
    | Some selected => selected
    | None => selectedCharacter loaded
    end in
  if str_eqb (script loaded) (script defaults) then mounted
  else
    match selectionCall (uniqueCharacters (script loaded)) mounted with
    | Some selected => selected
    | None => mounted
    end.

(** Settings with a script of two characters and the second one
    selected. *)
Definition second_selected : Settings :=
  {| script := lit "ANN: Hello" ++ LF :: lit "BOB: Hi";
     pronunciations := pronunciations defaults;
     selectedCharacter := lit "BOB";
     characterVoices := characterVoices defaults;
     speechRate := speechRate defaults;
     pitch := pitch defaults;
     volume := volume defaults;
     selectedLang := selectedLang defaults;
     isAccuracyCheckEnabled := isAccuracyCheckEnabled defaults;
     practiceMode := practiceMode defaults;
     isRecordAndPlaybackEnabled := isRecordAndPlaybackEnabled defaults;
     loopStartLine := loopStartLine defaults;
     loopEndLine := loopEndLine defaults |}.

(** The defaults with the volume slider at its minimum, 0. *)
Definition muted : Settings :=
  {| script := script defaults;
     pronunciations := pronunciations defaults;
     selectedCharacter := selectedCharacter defaults;
     characterVoices := characterVoices defaults;
     speechRate := speechRate defaults;
     pitch := pitch defaults;
     volume := 0;
     selectedLang := selectedLang defaults;
     isAccuracyCheckEnabled := isAccuracyCheckEnabled defaults;
     practiceMode := practiceMode defaults;
     isRecordAndPlaybackEnabled := isRecordAndPlaybackEnabled defaults;
     loopStartLine := loopStartLine defaults;
     loopEndLine := loopEndLine defaults |}.

End LineLearner.

(** ** The turn engine: [processLine], [startRecognition] and the callbacks *)

Module Engine.
Import Js Re LineLearner.
Local Open Scope Z_scope.

(** The values that the closures created during one render see. *)
Record Render : Type := {
  lines : list LineEntry;
  selectedCharacter : str;
  practiceMode : PracticeMode;
  isPracticing : bool;
  currentLineIndex : Z;
  isAccuracyCheckEnabled : bool;
  loopStartLine : str;
  loopEndLine : str;
  pronunciationMap : list (str * str);
  isSpeechSupported : bool
}.

(** A pending [setTimeout]. *)
Inductive Timer : Type :=
| StopPractice              (* () => handleStopPractice(), 3000 *)
| AdvanceLine (r : Render). (* advanceLine, 1500 *)

(** The utterance handed to the synthesiser: its text, the dialogue after
    the pronunciation rewrite, and the render its [onend] closes over. *)
Record Utterance : Type := {
  text : str;
  spokenBy : Render;
  isUserLine : bool
}.

(** What the setters and the refs hold. *)
Record Store : Type := {
  practicing : bool;
  cursor : Z;
  status : str;
  transcript : str;
  accuracyReport : option (list WordReport);
  recognitionRef : option Render;
  speechUtteranceRef : option Utterance;
  recording : bool;
  timers : list Timer
}.

Definition setIsPracticing (v : bool) (s : Store) : Store :=
  Build_Store v (cursor s) (status s) (transcript s) (accuracyReport s)
    (recognitionRef s) (speechUtteranceRef s) (recording s) (timers s).
Definition setCurrentLineIndex (v : Z) (s : Store) : Store :=
  Build_Store (practicing s) v (status s) (transcript s) (accuracyReport s)
    (recognitionRef s) (speechUtteranceRef s) (recording s) (timers s).
Definition setStatus (v : str) (s : Store) : Store :=
  Build_Store (practicing s) (cursor s) v (transcript s) (accuracyReport s)
    (recognitionRef s) (speechUtteranceRef s) (recording s) (timers s).
Definition setTranscript (v : str) (s : Store) : Store :=
  Build_Store (practicing s) (cursor s) (status s) v (accuracyReport s)
    (recognitionRef s) (speechUtteranceRef s) (recording s) (timers s).
Definition setAccuracyReport (v : option (list WordReport)) (s : Store)
    : Store :=
  Build_Store (practicing s) (cursor s) (status s) (transcript s) v
    (recognitionRef s) (speechUtteranceRef s) (recording s) (timers s).
Definition setRecognition (v : option Render) (s : Store) : Store :=
  Build_Store (practicing s) (cursor s) (status s) (transcript s)
    (accuracyReport s) v (speechUtteranceRef s) (recording s) (timers s).
Definition setUtterance (v : option Utterance) (s : Store) : Store :=
  Build_Store (practicing s) (cursor s) (status s) (transcript s)
    (accuracyReport s) (recognitionRef s) v (recording s) (timers s).
Definition setRecording (v : bool) (s : Store) : Store :=
  Build_Store (practicing s) (cursor s) (status s) (transcript s)
    (accuracyReport s) (recognitionRef s) (speechUtteranceRef s) v (timers s).
Definition setTimers (v : list Timer) (s : Store) : Store :=
  Build_Store (practicing s) (cursor s) (status s) (transcript s)
    (accuracyReport s) (recognitionRef s) (speechUtteranceRef s)
    (recording s) v.

Definition setTimeout (t : Timer) (s : Store) : Store :=
  setTimers (timers s ++ [t]) s.

(** [advanceLine] of render [r]: a functional update of the cursor. *)
Definition advance (r : Render) (s : Store) : Store :=
  setCurrentLineIndex
    (advanceLine (loopStartLine r) (loopEndLine r) (cursor s)) s.

Definition stopAllSpeechAndRecognition (s : Store) : Store :=
  setUtterance None (setRecording false s).

Definition handleStopPractice (s : Store) : Store :=
  setTranscript [] (setStatus []
    (setIsPracticing false (stopAllSpeechAndRecognition s))).

(** [recognition.onresult] *)
Definition onresult (r : Render) (heard : str) (s : Store) : Store :=
  let finalTranscript := trim heard in
  let s := setTranscript finalTranscript s in
  if isAccuracyCheckEnabled r then
    match nth_error (lines r) (Z.to_nat (currentLineIndex r)) with
    | Some line =>
        setAccuracyReport
          (Some (calculateAccuracy (dialogue line) finalTranscript)) s
    | None => s
    end
  else s.

(** [recognition.onend] *)
Definition onend (r : Render) (s : Store) : Store :=
  let s := if recording s then setRecording false s else s in
  if isPracticing r then setTimeout (AdvanceLine r) s else s.

(** [recognition.onerror] *)
Definition onerror (r : Render) (error : str) (s : Store) : Store :=
  if negb (str_eqb error (lit "aborted"))
  then setStatus (lit "Sorry, I didn't catch that.") s
  else s.

(** The recognition object keeps the render whose closures are its
    handlers. *)
Definition startRecognition (r : Render) (s : Store) : Store :=
  if negb (isSpeechSupported r) then s else setRecognition (Some r) s.

(** [processLine].  The answer is [None] where the call does not return
    a state that this model can give:
    - a negative [index], for which [lines[index]] is [undefined] and the
      read of its character throws (the cursor is never negative);
    - a pronunciation key that holds pattern syntax, for which
      [new RegExp] throws inside the [forEach], or runs the key as a
      pattern that [keyPattern] does not interpret. *)
Definition processLine (r : Render) (index : Z) (s : Store) : option Store :=
  if index >=? Z.of_nat (length (lines r)) then
    Some (setTimeout StopPractice (setStatus (lit "Script finished!") s))
  else if index <? 0 then None
  else
    match nth_error (lines r) (Z.to_nat index) with
    | None => None
    | Some currentLine =>
        let isUserLine :=
          str_eqb (character currentLine) (selectedCharacter r) in
        let s := setAccuracyReport None s in
        if negb isUserLine
           || match practiceMode r with read_along => true | _ => false end
        then
          let s :=
            setStatus (lit "Speaking as " ++ character currentLine ++ lit "...")
              s in
          let s := setTranscript [] s in
          match rewriteDialogue (pronunciationMap r) (dialogue currentLine) with
          | Some dialogueToSpeak =>
              Some (setUtterance
                      (Some {| text := dialogueToSpeak;
                               spokenBy := r;
                               isUserLine := isUserLine |}) s)
          | None => None
          end
        else
          Some (startRecognition r
                  (setStatus (lit "Your turn. Listening...") s))
    end.

(** The effect on [isPracticing] and [currentLineIndex]. *)
Definition practiceEffect (r : Render) (s : Store) : option Store :=
  if isPracticing r then processLine r (currentLineIndex r) s else Some s.

(** What the providers and the clock deliver. *)
Inductive Event : Type :=
| UtteranceEnd
| RecognitionResult (heard : str)
| RecognitionError (error : str)
| RecognitionEnd
| TimerFires.

Definition fire (t : Timer) (s : Store) : Store :=
  match t with
  | StopPractice => handleStopPractice s
  | AdvanceLine r => advance r s
  end.

Definition dispatch (s : Store) (e : Event) : Store :=
  match e with
  | UtteranceEnd =>
      match speechUtteranceRef s with
      | Some u =>
          if isUserLine u
             && match practiceMode (spokenBy u) with
                | read_along => true
                | _ => false
                end
          then startRecognition (spokenBy u) s
          else advance (spokenBy u) s
      | None => s
      end
  | RecognitionResult heard =>
      match recognitionRef s with Some r => onresult r heard s | None => s end
  | RecognitionError error =>
      match recognitionRef s with Some r => onerror r error s | None => s end
  | RecognitionEnd =>
      match recognitionRef s with Some r => onend r s | None => s end
  | TimerFires =>
      match timers s with
      | [] => s
      | t :: rest => fire t (setTimers rest s)
      end
  end.

Definition deliver (events : list Event) (s : Store) : Store :=
  fold_left dispatch events s.

(** How one recognition session ends.  The Web Speech API fires [end]
    whenever the service disconnects, also after [error]. *)
Inductive Outcome : Type :=
| Heard (heard : str)
| Failed (error : str)
| Silence.

Definition events_of (o : Outcome) : list Event :=
  match o with
  | Heard heard => [RecognitionResult heard; RecognitionEnd]
  | Failed error => [RecognitionError error; RecognitionEnd]
  | Silence => [RecognitionEnd]
  end.

(** [handleSkipLine], with the [advanceLine] of render [r]. *)
Definition handleSkipLine (r : Render) (s : Store) : Store :=
  advance r (stopAllSpeechAndRecognition s).

(** [handleStartPractice] *)
Definition handleStartPractice (r : Render) (s : Store) : Store :=
  if (0 <? Z.of_nat (length (lines r))) && truthy (selectedCharacter r)
  then
    setTranscript []
      (setCurrentLineIndex (startIdx (loopStartLine r))
         (setIsPracticing true s))
  else s.

(** The render that follows a store: the same settings, with the state
    that the store holds. *)
Definition rerender (r : Render) (s : Store) : Render :=
  {| lines := lines r;
     selectedCharacter := selectedCharacter r;
     practiceMode := practiceMode r;
     isPracticing := practicing s;
     currentLineIndex := cursor s;
     isAccuracyCheckEnabled := isAccuracyCheckEnabled r;
     loopStartLine := loopStartLine r;
     loopEndLine := loopEndLine r;
     pronunciationMap := pronunciationMap r;
     isSpeechSupported := isSpeechSupported r |}.

(** A render of a running session on a script of two lines, the user
    playing ANN in dialogue mode, and the store before the first turn. *)
Definition example_render : Render :=
  {| lines := parsedLines (lit "ANN: Hello" ++ LF :: lit "BOB: Hi");
     selectedCharacter := lit "ANN";
     practiceMode := dialogue_mode;
     isPracticing := true;
     currentLineIndex := 0;
     isAccuracyCheckEnabled := true;
     loopStartLine := [];
     loopEndLine := [];
     pronunciationMap := [];
     isSpeechSupported := true |}.

(** The same session in read-along mode, and with a loop start beyond
    the last line. *)
Definition read_along_render : Render :=
  {| lines := lines example_render;
     selectedCharacter := selectedCharacter example_render;
     practiceMode := read_along;
     isPracticing := true;
     currentLineIndex := 0;
     isAccuracyCheckEnabled := true;
     loopStartLine := [];
     loopEndLine := [];
     pronunciationMap := [];
     isSpeechSupported := true |}.

Definition late_render : Render :=
  {| lines := lines example_render;
     selectedCharacter := selectedCharacter example_render;
     practiceMode := dialogue_mode;
     isPracticing := false;
     currentLineIndex := 0;
     isAccuracyCheckEnabled := true;
     loopStartLine := lit "9";
     loopEndLine := [];
     pronunciationMap := [];
     isSpeechSupported := true |}.

Definition example_store : Store :=
  {| practicing := true;
     cursor := 0;
     status := [];
     transcript := [];
     accuracyReport := None;
     recognitionRef := None;
     speechUtteranceRef := None;
     recording := false;
     timers := [] |}.

End Engine.

(** ** Voices: the loading and the default assignment effects *)

Module Voices.
Import Js Re LineLearner.

Record Voice : Type := { voiceURI : str; lang : str; name : str }.

(** [s.startsWith(prefix)] *)
Fixpoint startsWith (prefix s : str) : bool :=
  match prefix, s with
  | [], _ => true
  | a :: prefix', c :: t => Ascii.eqb a c && startsWith prefix' t
  | _ :: _, [] => false
  end.

(** [handleVoicesChanged]: the voices of the selected language, by its
    primary subtag. *)
Definition handleVoicesChanged (allVoices : list Voice) (selectedLang : str)
    : list Voice :=
  filter (fun v => startsWith (fst (split "-" selectedLang)) (lang v))
    allVoices.

(** [obj[key]] on the object of voice assignments: [None] is [undefined].
    The names of a roster are in upper case, so they never name a property
    that an object inherits. *)
Fixpoint obj_get (obj : list (str * str)) (key : str) : option str :=
  match obj with
  | [] => None
  | (k, v) :: rest => if str_eqb k key then Some v else obj_get rest key
  end.

(** [obj[key] = value].  Only lookups are meant to be read off the list:
    the order in which an object enumerates its keys is not modelled. *)
Fixpoint obj_set (obj : list (str * str)) (key value : str)
    : list (str * str) :=
  match obj with
  | [] => [(key, value)]
  | (k, v) :: rest =>
      if str_eqb k key then (k, value) :: rest
      else (k, v) :: obj_set rest key value
  end.

(** [voices.some(v => v.voiceURI === uri)] *)
Definition some_voice (voices : list Voice) (uri : str) : bool :=
  existsb (fun v => str_eqb (voiceURI v) uri) voices.

(** An assignment that the effect keeps: a non-empty URI of one of the
    voices. *)
Definition kept (voices : list Voice) (a : option str) : bool :=
  match a with
  | Some uri => truthy uri && some_voice voices uri
  | None => false
  end.

(** The body of the [forEach] of the updater. *)
Definition assign_default (voices : list Voice) (defaultVoiceURI : str)
    (newAssignments : list (str * str)) (char : str) : list (str * str) :=
  match obj_get newAssignments char with
  | Some uri =>
      if negb (truthy uri) || negb (some_voice voices uri)
      then obj_set newAssignments char defaultVoiceURI
      else newAssignments
  | None => obj_set newAssignments char defaultVoiceURI
  end.

(** The default voice assignment effect: the value of [characterVoices]
    after it, from the value before. *)
Definition assignDefaultVoices (characters : list str)
    (selectedCharacter : str) (voices : list Voice)
    (prev : list (str * str)) : list (str * str) :=
  match voices with
  | [] => prev
  | first :: _ =>
      let aiCharacters :=
        filter (fun c => negb (str_eqb c selectedCharacter)) characters in
      let defaultVoiceURI := voiceURI first in
      if negb (truthy defaultVoiceURI) then prev
      else fold_left (assign_default voices defaultVoiceURI) aiCharacters prev
  end.

End Voices.

(** ** The specification's own words, for comparison with the code *)

Module Spec.
Import Js Re LineLearner.

(** Every line containing a colon produces exactly one entry; every line
    without a colon produces none. *)
Fixpoint entries (lines : list str) : list LineEntry :=
  match lines with
  | [] => []
  | line :: rest =>
      if includes ":" line then parseLine (trim line) :: entries rest
      else entries rest
  end.

(** The distinct names in first-appearance order: a name is kept where it
    has not been [seen] before. *)
Fixpoint first_appearances (seen names : list str) : list str :=
  match names with
  | [] => []
  | x :: rest =>
      if arr_includes seen x then first_appearances seen rest
      else x :: first_appearances (x :: seen) rest
  end.

Definition distinct (names : list str) : list str :=
  first_appearances [] names.

(** A loop bound that is present and positive. *)
Definition positive_line (bound : str) : bool :=
  match parseInt bound with
  | Some n => (0 <? n)%Z
  | None => false
  end.

(** A loop bound that is a line number beyond the last of [nlines] lines. *)
Definition beyond (nlines : nat) (bound : str) : bool :=
  match parseInt bound with
  | Some n => (Z.of_nat nlines <? n)%Z
  | None => false
  end.

(** Both bounds are numbers, the start strictly below the end. *)
Definition ordered (loopStartLine loopEndLine : str) : bool :=
  match parseInt loopStartLine, parseInt loopEndLine with
  | Some first, Some last => (first <? last)%Z
  | _, _ => false
  end.

(** Two words are the same up to letter case. *)
Definition same_word (a b : str) : bool :=
  str_eqb (toUpperCase a) (toUpperCase b).

(** The end of a run of word characters ([cur] holds it, latest character
    first): the run is replaced when, as a whole, it is the key. *)
Definition flush (key value cur : str) : str :=
  match cur with
  | [] => []
  | _ :: _ => if same_word (rev cur) key then value else rev cur
  end.

(** Whole-word, case-insensitive replacement of one key: the text is read
    as maximal runs of word characters separated by other characters, and
    only a run that is the key is replaced. *)
Fixpoint substitute_words (key value cur s : str) : str :=
  match s with
  | [] => flush key value cur
  | c :: t =>
      if isWordChar c then substitute_words key value (c :: cur) t
      else flush key value cur ++ c :: substitute_words key value [] t
  end.

Definition rewrite_words (key value s : str) : str :=
  substitute_words key value [] s.

(** The mapped value of a word, if it is a key of the map. *)
Fixpoint mapped (m : list (str * str)) (w : str) : option str :=
  match m with
  | [] => None
  | (key, value) :: rest =>
      if same_word w key then Some value else mapped rest w
  end.

Definition flush_each (m : list (str * str)) (cur : str) : str :=
  match mapped m (rev cur) with
  | Some value => value
  | None => rev cur
  end.

(** The rewrite as the specification words it: every whole-word occurrence
    of a key in the dialogue is replaced with the value mapped to that
    key. *)
Fixpoint replace_each (m : list (str * str)) (cur s : str) : str :=
  match s with
  | [] => flush_each m cur
  | c :: t =>
      if isWordChar c then replace_each m (c :: cur) t
      else flush_each m cur ++ c :: replace_each m [] t
  end.

Definition rewrite (m : list (str * str)) (dialogue : str) : str :=
  replace_each m [] dialogue.

(** A key made of word characters only, and a value that holds no
    replacement pattern. *)
Definition plain_key (key : str) : bool :=
  truthy key && forallb isWordChar key.

Definition plain_value (value : str) : bool := negb (includes "$" value).

Definition plain_entry (e : str * str) : bool :=
  let (key, value) := e in plain_key key && plain_value value.

(** One entry of the map applied to the text so far. *)
Definition step_words (d : str) (e : str * str) : str :=
  let (key, value) := e in rewrite_words key value d.

(** The greedy one-pass alignment of the expected words with the words
    of the transcript, by recursion on the two lists. *)
Fixpoint align (expected transcript : list str) : list WordReport :=
  match expected with
  | [] => []
  | e :: es =>
      match transcript with
      | t :: ts =>
          if str_eqb e t
          then {| word := e; status := correct |} :: align es ts
          else {| word := e; status := incorrect |} :: align es transcript
      | [] => {| word := e; status := incorrect |} :: align es []
      end
  end.

Definition is_correct (e : WordReport) : bool :=
  match status e with correct => true | _ => false end.

(** The value that a map holds for a key. *)
Fixpoint lookup (m : list (str * str)) (key : str) : option str :=
  match m with
  | [] => None
  | (k, v) :: rest => if str_eqb k key then Some v else lookup rest key
  end.

(** A character that a normalized word may hold: a lowercase letter, a
    digit or the underscore. *)
Definition isNormalChar (c : ascii) : bool :=
  isWordChar c && negb (isUpper c).

(** What the load effect hands to the setters after a save of the
    settings: a rate, pitch or volume of zero and an empty language tag
    take their defaults. *)
Definition or_one (q : Q) : Q := if Qeq_bool q 0 then 1%Q else q.

Definition normalized (s : Settings) : Settings :=
  {| script := script s;
     pronunciations := pronunciations s;
     selectedCharacter := selectedCharacter s;
     characterVoices := characterVoices s;
     speechRate := or_one (speechRate s);
     pitch := or_one (pitch s);
     volume := or_one (volume s);
     selectedLang := or_else (selectedLang s) (lit "en-US");
     isAccuracyCheckEnabled := isAccuracyCheckEnabled s;
     practiceMode := practiceMode s;
     isRecordAndPlaybackEnabled := isRecordAndPlaybackEnabled s;
     loopStartLine := loopStartLine s;
     loopEndLine := loopEndLine s |}.

End Spec.

(* ================================================================== *)
(** * Part II. Properties                                              *)
(* ================================================================== *)

Import Js Re LineLearner.

(** ** Strings *)

Section Strings.

Lemma str_eqb_eq (a b : str) : str_eqb a b = true <-> a = b.
Proof.
  revert b; induction a as [|x a IH]; intros [|y b]; simpl;
    try (split; congruence).
  rewrite andb_true_iff, Ascii.eqb_eq, IH.
  split; [intros [-> ->]; reflexivity | intros H; injection H; auto].
Qed.

Lemma str_eqb_refl (a : str) : str_eqb a a = true.
Proof. apply str_eqb_eq; reflexivity. Qed.

Lemma arr_includes_In (arr : list str) (x : str) :
  arr_includes arr x = true <-> In x arr.
Proof.
  unfold arr_includes. rewrite existsb_exists. split.
  - intros [y [Hy E]]. apply str_eqb_eq in E. subst. assumption.
  - intros H. exists x. split; [assumption | apply str_eqb_refl].
Qed.

Lemma space_not_colon (c : ascii) : isSpace c = true -> isChar ":" c = false.
Proof.
  destruct c as [[] [] [] [] [] [] [] []]; vm_compute; congruence.
Qed.

Lemma includes_dropWhile (s : str) :
  includes ":" (dropWhile isSpace s) = includes ":" s.
Proof.
  induction s as [|c s IH]; simpl; [reflexivity|].
  destruct (isSpace c) eqn:E; [|reflexivity].
  rewrite IH. unfold includes; simpl.
  rewrite (space_not_colon c E). reflexivity.
Qed.

Lemma includes_rev (a : ascii) (s : str) : includes a (rev s) = includes a s.
Proof.
  unfold includes. induction s as [|c s IH]; simpl; [reflexivity|].
  rewrite existsb_app, IH. simpl. rewrite orb_false_r. apply orb_comm.
Qed.

Lemma includes_trim (s : str) : includes ":" (trim s) = includes ":" s.
Proof.
  unfold trim, trimEnd, trimStart.
  rewrite includes_rev, includes_dropWhile, includes_rev.
  apply includes_dropWhile.
Qed.

End Strings.

(** ** The script parser *)

Section Parser.

Lemma filter_Boolean (l : list LineEntry) : filter Boolean_entry l = l.
Proof.
  induction l as [|e l IH]; simpl; [reflexivity | rewrite IH; reflexivity].
Qed.

Lemma parsed_as_entries (lines : list str) :
  map parseLine (filter (includes ":") (map trim lines)) = Spec.entries lines.
Proof.
  induction lines as [|l lines IH]; simpl; [reflexivity|].
  rewrite includes_trim.
  destruct (includes ":" l); simpl; rewrite IH; reflexivity.
Qed.

Lemma entries_length (lines : list str) :
  length (Spec.entries lines) = length (filter (includes ":") lines).
Proof.
  induction lines as [|l lines IH]; simpl; [reflexivity|].
  destruct (includes ":" l); simpl; rewrite IH; reflexivity.
Qed.

(** The set built by insertion holds, after what it held, the first
    appearances among the names inserted. *)
Lemma new_Set_from (names acc seen : list str) :
  (forall x, arr_includes seen x = arr_includes acc x) ->
  fold_left set_add names acc = acc ++ Spec.first_appearances seen names.
Proof.
  revert acc seen; induction names as [|x names IH]; intros acc seen Hs; simpl.
  - symmetry; apply app_nil_r.
  - unfold set_add at 2. rewrite Hs.
    destruct (arr_includes acc x) eqn:E.
    + apply IH; assumption.
    + rewrite (IH (acc ++ [x]) (x :: seen)).
      * rewrite <- app_assoc. reflexivity.
      * intros y. unfold arr_includes in *. simpl.
        rewrite existsb_app. simpl. rewrite orb_false_r, Hs.
        apply orb_comm.
Qed.

Lemma first_appearances_In (names seen : list str) (x : str) :
  In x (Spec.first_appearances seen names) <-> In x names /\ ~ In x seen.
Proof.
  revert seen; induction names as [|y names IH]; intros seen; simpl.
  - tauto.
  - destruct (arr_includes seen y) eqn:E.
    + apply arr_includes_In in E. rewrite IH.
      split; [tauto|]. intros [[->|H] Hn]; tauto.
    + assert (Hy : ~ In y seen).
      { intros H. apply arr_includes_In in H. congruence. }
      simpl. rewrite IH. simpl.
      destruct (list_eq_dec ascii_dec y x) as [->|Hne]; tauto.
Qed.

Lemma first_appearances_NoDup (names seen : list str) :
  NoDup (Spec.first_appearances seen names).
Proof.
  revert seen; induction names as [|y names IH]; intros seen; simpl.
  - constructor.
  - destruct (arr_includes seen y); [apply IH|].
    constructor; [|apply IH].
    rewrite first_appearances_In. simpl. tauto.
Qed.

(** C1. For every script text, the parser yields exactly one entry for
    each line that contains a colon, in order, and none for a line without
    one (no line makes it fail: [parsedLines] is total); the roster is the
    distinct character names of the entries in first-appearance order,
    each name once. *)
Theorem parse_entries_and_roster (script : str) :
  let lines := pieces (split LF script) in
  parsedLines script = Spec.entries lines
  /\ length (parsedLines script) = length (filter (includes ":") lines)
  /\ uniqueCharacters script
     = Spec.distinct (map character (parsedLines script))
  /\ NoDup (uniqueCharacters script)
  /\ (forall name,
        In name (uniqueCharacters script)
        <-> In name (map character (parsedLines script))).
Proof.
  intros lines.
  assert (E : parsedLines script = Spec.entries lines).
  { unfold parsedLines. rewrite filter_Boolean. apply parsed_as_entries. }
  assert (U : uniqueCharacters script
              = Spec.distinct (map character (parsedLines script))).
  { unfold uniqueCharacters, new_Set, Spec.distinct.
    rewrite (new_Set_from _ [] []); [reflexivity | reflexivity]. }
  repeat split.
  - exact E.
  - rewrite E. apply entries_length.
  - exact U.
  - rewrite U. apply first_appearances_NoDup.
  - rewrite U. unfold Spec.distinct. rewrite first_appearances_In. tauto.
  - rewrite U. unfold Spec.distinct. rewrite first_appearances_In.
    intros H; split; [exact H | intros []].
Qed.

End Parser.

(** ** The accuracy scorer *)

Section Scorer.

Lemma nth_error_middle (done : list WordReport) e todo :
  nth_error (done ++ e :: todo) (length done) = Some e.
Proof.
  induction done as [|d done IH]; simpl; [reflexivity | exact IH].
Qed.

Lemma set_status_middle (done : list WordReport) e todo v :
  set_status (length done) v (done ++ e :: todo)
  = done ++ {| word := word e; status := v |} :: todo.
Proof.
  induction done as [|d done IH]; simpl; [reflexivity|].
  rewrite IH. reflexivity.
Qed.

(** The loop invariant: the entries already visited stay as they are, and
    each entry still to visit keeps its word and ends settled. *)
Lemma score_loop_spec (tw : list str) (todo done : list WordReport) tIdx :
  exists todo',
    score_loop (length todo) (length done) tIdx tw (done ++ todo)
    = done ++ todo'
    /\ map word todo' = map word todo
    /\ Forall settled todo'.
Proof.
  revert done tIdx; induction todo as [|e todo IH]; intros done tIdx.
  - exists []. simpl. repeat split; constructor.
  - simpl score_loop. rewrite nth_error_middle.
    destruct ((tIdx <? length tw) && str_eqb (word e) (nth tIdx tw [])).
    + rewrite set_status_middle.
      destruct (IH (done ++ [ {| word := word e; status := correct |} ])
                  (S tIdx)) as [todo' [E [W S]]].
      rewrite length_app, Nat.add_1_r, <- app_assoc in E. simpl in E.
      exists ({| word := word e; status := correct |} :: todo').
      rewrite E, <- app_assoc. simpl. repeat split.
      * f_equal. exact W.
      * constructor; [left; reflexivity | exact S].
    + rewrite set_status_middle.
      destruct (IH (done ++ [ {| word := word e; status := incorrect |} ])
                  tIdx) as [todo' [E [W S]]].
      rewrite length_app, Nat.add_1_r, <- app_assoc in E. simpl in E.
      exists ({| word := word e; status := incorrect |} :: todo').
      rewrite E, <- app_assoc. simpl. repeat split.
      * f_equal. exact W.
      * constructor; [right; reflexivity | exact S].
Qed.

(** C2. For every expected line and transcript, the report has exactly one
    entry per normalized expected word, in order, and every entry is
    [correct] or [incorrect]: [missing] is never returned. *)
Theorem report_is_exhaustive (original transcript : str) :
  let report := calculateAccuracy original transcript in
  map word report = words original
  /\ length report = length (words original)
  /\ Forall (fun e => status e = correct \/ status e = incorrect) report
  /\ ~ In missing (map status report).
Proof.
  intros report. subst report. unfold calculateAccuracy.
  destruct (score_loop_spec (words transcript)
              (map (fun w => {| word := w; status := missing |})
                 (words original)) [] 0) as [r [E [W S]]].
  simpl in E. rewrite E.
  assert (Hw : map word r = words original).
  { rewrite W, map_map. simpl. apply map_id. }
  repeat split.
  - exact Hw.
  - rewrite <- Hw. symmetry. apply length_map.
  - exact S.
  - intros H. apply in_map_iff in H. destruct H as [e [He Hin]].
    rewrite Forall_forall in S. destruct (S e Hin); congruence.
Qed.

(** C3, as the specification has it: the sixth word is not [correct] in
    the report that the code returns. *)
Lemma sixth_word_not_correct :
  calculateAccuracy (lit "To be or not to be") (lit "to be or not too be")
  <> [ entry "to" correct; entry "be" correct; entry "or" correct;
       entry "not" correct; entry "to" incorrect; entry "be" correct ].
Proof. vm_compute. discriminate. Qed.

(** C3, amended. The transcript cursor stays on [too] once the fifth word
    has failed, so the sixth expected word fails against it as well. *)
Theorem to_be_report :
  calculateAccuracy (lit "To be or not to be") (lit "to be or not too be")
  = [ entry "to" correct; entry "be" correct; entry "or" correct;
      entry "not" correct; entry "to" incorrect; entry "be" incorrect ].
Proof. vm_compute. reflexivity. Qed.

End Scorer.

(** ** The cursor and the loop range *)

Section Cursor.
Local Open Scope Z_scope.

Lemma parseInt_truthy (s : str) (n : Z) : parseInt s = Some n -> truthy s = true.
Proof. destruct s; [discriminate | reflexivity]. Qed.

(** C4. Advancing adds one to the cursor, except that with both bounds of
    the loop range set (to 1-based line numbers [start] and [end_]) an
    incremented cursor that reaches or exceeds [end_] is replaced by the
    0-based loop start, [start - 1]; with a bound unset the cursor just
    advances.  With the range 3..6 the cursor goes 5, 2, 3, 4, 5, 2 (the
    number of lines plays no part in the update). *)
Theorem advance_rule (loopStartLine loopEndLine : str) (prev start end_ : Z) :
  parseInt loopStartLine = Some start ->
  parseInt loopEndLine = Some end_ ->
  1 <= start ->
  1 <= end_ ->
  advanceLine loopStartLine loopEndLine prev
  = (if prev + 1 >=? end_ then start - 1 else prev + 1)
  /\ advanceLine [] loopEndLine prev = prev + 1
  /\ advanceLine loopStartLine [] prev = prev + 1
  /\ map (advanceLine (lit "3") (lit "6")) [5; 2; 3; 4; 5] = [2; 3; 4; 5; 2].
Proof.
  intros Hs He Hs1 He1. repeat split.
  - unfold advanceLine.
    rewrite (parseInt_truthy _ _ Hs), (parseInt_truthy _ _ He), Hs, He.
    cbn [option_map].
    assert (A : (start - 1 >=? 0) = true) by lia.
    assert (B : (end_ >? 0) = true) by lia.
    rewrite A, B. reflexivity.
  - unfold advanceLine. simpl truthy. cbv iota.
    destruct (if truthy loopEndLine then parseInt loopEndLine else Some (-1));
      reflexivity.
  - unfold advanceLine. simpl truthy. cbv iota.
    destruct (if truthy loopStartLine
              then option_map (fun n => n - 1) (parseInt loopStartLine)
              else Some (-1)) as [s|]; [|reflexivity].
    rewrite andb_false_r. reflexivity.
Qed.

Lemma advance_rule_witness :
  advanceLine (lit "3") (lit "6") 5 = 2.
Proof.
  refine (proj1 (advance_rule (lit "3") (lit "6") 5 3 6 _ _ _ _));
    [reflexivity | reflexivity | lia | lia].
Defined.

(** C5, as stated: a range whose start is not below its end is still
    applied.  With start 4 and end 2 the session starts on index 3, and
    advancing returns the loop start 3 instead of 4. *)
Lemma inverted_range_still_loops :
  parseInt (lit "4") = Some 4
  /\ parseInt (lit "2") = Some 2
  /\ startIdx (lit "4") = 3
  /\ advanceLine (lit "4") (lit "2") 3 = 3
  /\ advanceLine (lit "4") (lit "2") 3 <> 3 + 1.
Proof. vm_compute. repeat split; discriminate. Qed.

Lemma startIdx_default (loopStartLine : str) :
  Spec.positive_line loopStartLine = false -> startIdx loopStartLine = 0.
Proof.
  unfold Spec.positive_line, startIdx.
  destruct (parseInt loopStartLine) as [n|]; [|reflexivity].
  intros H. assert (G : (n >? 0) = false) by lia.
  rewrite G, andb_false_r. reflexivity.
Qed.

Lemma advanceLine_no_loop (loopStartLine loopEndLine : str) (prev : Z) :
  Spec.positive_line loopStartLine && Spec.positive_line loopEndLine = false ->
  advanceLine loopStartLine loopEndLine prev = prev + 1.
Proof.
  unfold Spec.positive_line, advanceLine. intros H.
  destruct (truthy loopStartLine) eqn:Ts.
  - destruct (parseInt loopStartLine) as [s|]; cbn [option_map];
      [|reflexivity].
    destruct (truthy loopEndLine) eqn:Te.
    + destruct (parseInt loopEndLine) as [e|]; [|reflexivity].
      destruct (0 <? s) eqn:Ps.
      * simpl in H. assert (B : (e >? 0) = false) by lia.
        rewrite B, andb_false_r. reflexivity.
      * assert (A : (s - 1 >=? 0) = false) by lia.
        rewrite A. reflexivity.
    + rewrite andb_false_r. reflexivity.
  - destruct (if truthy loopEndLine then parseInt loopEndLine else Some (-1));
      reflexivity.
Qed.

Lemma advanceLine_below_end (loopStartLine loopEndLine : str)
    (prev last : Z) :
  parseInt loopEndLine = Some last ->
  prev + 1 < last ->
  advanceLine loopStartLine loopEndLine prev = prev + 1.
Proof.
  intros He Hlt. unfold advanceLine.
  rewrite (parseInt_truthy _ _ He), He.
  destruct (if truthy loopStartLine
            then option_map (fun n => n - 1) (parseInt loopStartLine)
            else Some (-1)) as [s|]; [|reflexivity].
  assert (A : (prev + 1 >=? last) = false) by lia.
  rewrite A, andb_false_r. reflexivity.
Qed.

Lemma advanceLine_beyond (nlines : nat) (loopStartLine loopEndLine : str)
    (prev : Z) :
  prev < Z.of_nat nlines ->
  Spec.beyond nlines loopEndLine = true ->
  advanceLine loopStartLine loopEndLine prev = prev + 1.
Proof.
  unfold Spec.beyond. intros Hp Hb.
  destruct (parseInt loopEndLine) as [last|] eqn:He; [|discriminate].
  apply (advanceLine_below_end _ _ _ last He). lia.
Qed.

Lemma ordered_beyond (nlines : nat) (loopStartLine loopEndLine : str) :
  Spec.beyond nlines loopStartLine = true ->
  Spec.ordered loopStartLine loopEndLine = true ->
  Spec.beyond nlines loopEndLine = true.
Proof.
  unfold Spec.beyond, Spec.ordered.
  destruct (parseInt loopStartLine) as [first|]; [|discriminate].
  destruct (parseInt loopEndLine) as [last|]; [|discriminate].
  intros H1 H2. lia.
Qed.

Lemma advanceLine_at_end (loopStartLine loopEndLine : str)
    (prev first last : Z) :
  parseInt loopStartLine = Some first ->
  parseInt loopEndLine = Some last ->
  1 <= first ->
  1 <= last ->
  last <= prev + 1 ->
  advanceLine loopStartLine loopEndLine prev = first - 1.
Proof.
  intros Hs He H1 H2 H3. unfold advanceLine.
  rewrite (parseInt_truthy _ _ Hs), (parseInt_truthy _ _ He), Hs, He.
  cbn [option_map].
  assert (A : (first - 1 >=? 0) = true) by lia.
  assert (B : (last >? 0) = true) by lia.
  assert (C : (prev + 1 >=? last) = true) by lia.
  rewrite A, B, C. reflexivity.
Qed.

Lemma startIdx_positive (loopStartLine : str) (first : Z) :
  parseInt loopStartLine = Some first ->
  1 <= first ->
  startIdx loopStartLine = first - 1.
Proof.
  intros Hs H1. unfold startIdx.
  rewrite Hs, (parseInt_truthy _ _ Hs).
  assert (A : (first >? 0) = true) by lia. rewrite A. reflexivity.
Qed.

(** C5, amended. The order of the two bounds is not checked: with both
    bounds positive numbers, an incremented cursor that reaches the end
    is replaced by the loop start, also when the start is not below the
    end.  The other two conditions do keep the cursor from looping back:
    - when the start or the end is empty, not a number, zero or negative,
      advancing adds one, from every cursor;
    - when the end is a line number beyond the last line of the script,
      advancing from a cursor on a line of the script adds one; this is
      the case of a start beyond the last line that is below the end.
    Such a range is not treated as absent where the session starts: a
    loop start that is not positive makes it start on the first line,
    and a positive loop start is the line it starts on, whatever the end
    and the length of the script are. *)
Theorem loop_needs_usable_bounds (nlines : nat)
    (loopStartLine loopEndLine : str) (prev : Z) :
  (forall first last,
      parseInt loopStartLine = Some first ->
      parseInt loopEndLine = Some last ->
      1 <= first -> 1 <= last -> last <= prev + 1 ->
      advanceLine loopStartLine loopEndLine prev = first - 1)
  /\ (Spec.positive_line loopStartLine && Spec.positive_line loopEndLine
      = false ->
      advanceLine loopStartLine loopEndLine prev = prev + 1)
  /\ (prev < Z.of_nat nlines ->
      Spec.beyond nlines loopEndLine = true ->
      advanceLine loopStartLine loopEndLine prev = prev + 1)
  /\ (prev < Z.of_nat nlines ->
      Spec.beyond nlines loopStartLine = true ->
      Spec.ordered loopStartLine loopEndLine = true ->
      advanceLine loopStartLine loopEndLine prev = prev + 1)
  /\ (Spec.positive_line loopStartLine = false ->
      startIdx loopStartLine = 0)
  /\ (forall first,
        parseInt loopStartLine = Some first ->
        1 <= first ->
        startIdx loopStartLine = first - 1).
Proof.
  split; [|split; [|split; [|split; [|split]]]].
  - intros first last. apply advanceLine_at_end.
  - apply advanceLine_no_loop.
  - apply advanceLine_beyond.
  - intros Hp Hb Ho. apply (advanceLine_beyond nlines); [exact Hp|].
    apply (ordered_beyond _ loopStartLine); assumption.
  - apply startIdx_default.
  - intros first. apply startIdx_positive.
Qed.

Lemma loop_needs_usable_bounds_witness :
  advanceLine (lit "0") (lit "5") 7 = 8
  /\ advanceLine (lit "3") (lit "50") 9 = 10
  /\ advanceLine (lit "20") (lit "30") 9 = 10
  /\ advanceLine (lit "4") (lit "2") 3 = 3
  /\ startIdx (lit "3") = 2.
Proof.
  split; [|split; [|split; [|split]]].
  - exact (proj1 (proj2
      (loop_needs_usable_bounds 10 (lit "0") (lit "5") 7)) eq_refl).
  - refine (proj1 (proj2 (proj2
      (loop_needs_usable_bounds 10 (lit "3") (lit "50") 9))) _ _);
      [lia | reflexivity].
  - refine (proj1 (proj2 (proj2 (proj2
      (loop_needs_usable_bounds 10 (lit "20") (lit "30") 9)))) _ _ _);
      [lia | reflexivity | reflexivity].
  - refine (proj1
      (loop_needs_usable_bounds 10 (lit "4") (lit "2") 3) 4 2 _ _ _ _ _);
      [reflexivity | reflexivity | lia | lia | lia].
  - refine (proj2 (proj2 (proj2 (proj2 (proj2
      (loop_needs_usable_bounds 10 (lit "3") [] 0))))) 3 _ _);
      [reflexivity | lia].
Defined.

End Cursor.

(** ** The selected character *)

Section Selection.

Lemma reselect_member (roster : list str) (selected : str) :
  roster <> [] -> In (reselect roster selected) roster.
Proof.
  intros Hne. unfold reselect.
  destruct roster as [|first rest]; [congruence|].
  simpl length. simpl Nat.ltb. simpl Nat.eqb. cbv iota.
  destruct (arr_includes (first :: rest) selected) eqn:E; simpl negb; cbv iota.
  - apply arr_includes_In. exact E.
  - left. reflexivity.
Qed.

(** C10. After the effect on [script] has run, the selection agrees with
    the roster derived from the script: a selection that is not in a
    non-empty roster becomes the roster's first name, an empty roster
    empties the selection, a selection that is in the roster stays; so the
    selection is a roster member whenever the roster is not empty. *)
Theorem selection_follows_roster (script selectedCharacter : str) :
  let roster := uniqueCharacters script in
  let selected := reselect roster selectedCharacter in
  (roster <> [] -> ~ In selectedCharacter roster ->
   Some selected = nth_error roster 0)
  /\ (roster = [] -> selected = [])
  /\ (In selectedCharacter roster -> selected = selectedCharacter)
  /\ (roster <> [] -> In selected roster).
Proof.
  intros roster selected. subst selected. generalize roster as r. clear.
  intros r. repeat split.
  - intros Hne Hnot. unfold reselect.
    destruct r as [|first rest]; [congruence|].
    assert (E : arr_includes (first :: rest) selectedCharacter = false).
    { destruct (arr_includes (first :: rest) selectedCharacter) eqn:E;
        [|reflexivity].
      apply arr_includes_In in E. contradiction. }
    rewrite E. reflexivity.
  - intros ->. reflexivity.
  - intros Hin. unfold reselect.
    destruct r as [|first rest]; [destruct Hin|].
    apply arr_includes_In in Hin. rewrite Hin. reflexivity.
  - apply reselect_member.
Qed.

Lemma selection_follows_roster_witness :
  In (reselect (uniqueCharacters (lit "ANN: hello")) (lit "BOB"))
     (uniqueCharacters (lit "ANN: hello")).
Proof.
  refine (proj2 (proj2 (proj2
    (selection_follows_roster (lit "ANN: hello") (lit "BOB")))) _).
  vm_compute. discriminate.
Defined.

End Selection.

(** ** Settings *)

Section Persistence.

Lemma as_mode_name_truthy (m : PracticeMode) :
  as_mode (if truthy (mode_name m) then JStr (mode_name m)
           else JStr (lit "dialogue")) = m.
Proof. destruct m; reflexivity. Qed.

(** What does survive: settings whose rate, pitch and volume are not zero
    and whose language tag is not empty are restored field by field. *)
Lemma settings_restored (s current : Settings) :
  Qeq_bool (speechRate s) 0 = false ->
  Qeq_bool (pitch s) 0 = false ->
  Qeq_bool (volume s) 0 = false ->
  selectedLang s <> [] ->
  loadSettings (saveSettings s) current = s.
Proof.
  intros Hr Hp Hv Hl. destruct s. simpl in *.
  unfold loadSettings, saveSettings, stringify. simpl get.
  unfold or_default, nullish, json_truthy. rewrite Hr, Hp, Hv.
  cbn [negb as_num as_bool as_dict]. rewrite as_mode_name_truthy.
  destruct selectedLang0; [congruence|].
  destruct script0, pronunciations0, selectedCharacter0, loopStartLine0,
    loopEndLine0; reflexivity.
Qed.

(** C6 fails on the code: a volume of 0, the minimum of the volume slider,
    is saved as 0 and loaded back as 1, because the load effect writes
    [settings.volume || 1]. *)
Theorem volume_zero_not_restored :
  volume muted = 0%Q
  /\ get "volume" (stringify muted) = Some (JNum 0)
  /\ volume (loadSettings (saveSettings muted) defaults) = 1%Q
  /\ loadSettings (saveSettings muted) defaults <> muted.
Proof.
  repeat split. intros H. apply (f_equal volume) in H. discriminate H.
Qed.

End Persistence.

(** ** The matcher *)

Section Matcher.

Variable k : mstate -> option mstate.

Lemma run_Chr (p : ascii -> bool) c bef aft cs :
  p c = true ->
  run (Chr p) k (MState bef (c :: aft) cs) = k (MState (c :: bef) aft cs).
Proof. intros H. simpl. rewrite H. reflexivity. Qed.

(** A greedy star takes the whole run of class characters when the rest of
    the pattern accepts what follows. *)
Lemma star_greedy_all (p : ascii -> bool) (a b : str) bef cs r :
  Forall (fun c => p c = true) a ->
  stops p b ->
  k (MState (rev a ++ bef) b cs) = Some r ->
  star_run true p k bef cs (a ++ b) = Some r.
Proof.
  revert bef; induction a as [|x a IH]; intros bef Ha Hb Hk.
  - simpl in *. destruct b as [|c b]; simpl; [exact Hk|].
    unfold stops in Hb. simpl in Hb. rewrite Hb. exact Hk.
  - inversion Ha as [|? ? Hx Ha']; subst. simpl. rewrite Hx.
    rewrite (IH (x :: bef) Ha' Hb); [reflexivity|].
    simpl in Hk. rewrite <- app_assoc in Hk. exact Hk.
Qed.

(** A lazy star stops at the first place where the rest of the pattern
    accepts. *)
Lemma star_lazy_first (p : ascii -> bool) (a b : str) bef cs r :
  Forall (fun c => p c = true) a ->
  (forall a1 c a2, a = a1 ++ c :: a2 ->
     k (MState (rev a1 ++ bef) (c :: a2 ++ b) cs) = None) ->
  k (MState (rev a ++ bef) b cs) = Some r ->
  star_run false p k bef cs (a ++ b) = Some r.
Proof.
  revert bef; induction a as [|x a IH]; intros bef Ha Hn Hk.
  - simpl in *. destruct b as [|c b]; simpl; [exact Hk|].
    rewrite Hk. destruct (p c); reflexivity.
  - inversion Ha as [|? ? Hx Ha']; subst. simpl. rewrite Hx.
    pose proof (Hn [] x a eq_refl) as H0. simpl in H0. rewrite H0.
    apply (IH (x :: bef) Ha').
    + intros a1 c a2 E.
      specialize (Hn (x :: a1) c a2). simpl in Hn.
      rewrite <- app_assoc in Hn. apply Hn. rewrite E. reflexivity.
    + simpl in Hk. rewrite <- app_assoc in Hk. exact Hk.
Qed.

Lemma run_Opt_taken (r : regex) st x :
  run r k st = Some x -> run (Opt r) k st = Some x.
Proof. intros H. simpl. rewrite H. reflexivity. Qed.

End Matcher.

Lemma star_greedy_end (k : mstate -> option mstate) (p : ascii -> bool)
    (a : str) bef cs r :
  Forall (fun c => p c = true) a ->
  k (MState (rev a ++ bef) [] cs) = Some r ->
  star_run true p k bef cs a = Some r.
Proof.
  intros Ha Hk. rewrite <- (app_nil_r a) at 1.
  apply star_greedy_all; [exact Ha | reflexivity | exact Hk].
Qed.

Lemma first_alternative {A : Type} (X Y : option A) (x : A) :
  X = Some x -> match X with Some v => Some v | None => Y end = Some x.
Proof. intros ->. reflexivity. Qed.

Lemma consumed_eq (a : str) (st st' : mstate) :
  before st' = rev a ++ before st -> consumed st st' = a.
Proof.
  intros E. unfold consumed. rewrite E, length_app, Nat.add_sub.
  rewrite firstn_app, Nat.sub_diag, firstn_all. simpl.
  rewrite app_nil_r. apply rev_involutive.
Qed.

Lemma exec_from_here (re : regex) (bef aft : str) (m : result) :
  match_at re bef aft = Some m -> exec_from re bef aft = Some m.
Proof. intros H. destruct aft; simpl; rewrite H; reflexivity. Qed.

Lemma forallb_Forall (p : ascii -> bool) (s : str) :
  forallb p s = true -> Forall (fun c => p c = true) s.
Proof. intros H. apply Forall_forall. apply forallb_forall. exact H. Qed.

(** ** The structured line pattern *)

Section StructuredLine.

Variables tok ws1 dir ws2 dlg : str.

Hypothesis tok_nonempty : truthy tok = true.
Hypothesis tok_class : forallb isTokenChar tok = true.
Hypothesis ws1_space : forallb isSpace ws1 = true.
Hypothesis dir_inside :
  forallb (fun c => isDot c && negb (isChar ")" c)) dir = true.
Hypothesis ws2_space : forallb isSpace ws2 = true.
Hypothesis dlg_one_line : forallb isDot dlg = true.
Hypothesis dlg_start : starts_with isSpace dlg = false.

(** The pattern matches the line from its start, with the token, the text
    between the parentheses and the text after them in groups 1, 2, 3. *)
Lemma lineRegex_run :
  exists bef,
    run lineRegex Some (MState [] (structured tok ws1 dir ws2 dlg) [])
    = Some (MState bef [] [(3, dlg); (2, dir); (1, tok)]).
Proof.
  unfold structured.
  destruct tok as [|t0 tok']; [discriminate|].
  simpl in tok_class. apply andb_true_iff in tok_class.
  destruct tok_class as [Ht0 Htok'].
  eexists.
  cbn [lineRegex Seq Plus run before after caps app].
  rewrite Ht0.
  eapply star_greedy_all;
    [apply forallb_Forall; exact Htok' | reflexivity |].
  cbn [before after caps set_cap].
  rewrite (consumed_eq (t0 :: tok'))
    by (simpl; rewrite app_nil_r; reflexivity).
  change (isChar ":" ":") with true. cbv iota.
  eapply star_greedy_all;
    [apply forallb_Forall; exact ws1_space | reflexivity |].
  cbn [before after caps].
  change (isChar "(" "(") with true. cbv iota.
  apply first_alternative.
  pose proof (forallb_Forall _ _ dir_inside) as Hdir.
  eapply star_lazy_first.
  - eapply Forall_impl; [|exact Hdir].
    intros c H. apply andb_true_iff in H. tauto.
  - intros a1 c a2 E. cbn [after].
    assert (Hc : isChar ")" c = false).
    { rewrite Forall_forall in Hdir.
      specialize (Hdir c). rewrite E in Hdir.
      assert (In c (a1 ++ c :: a2)) as Hin
        by (apply in_or_app; right; left; reflexivity).
      apply Hdir in Hin. apply andb_true_iff in Hin.
      destruct Hin as [_ Hin]. apply negb_true_iff in Hin. exact Hin. }
    rewrite Hc. reflexivity.
  - cbn [before after caps].
    change (isChar ")" ")") with true. cbv iota.
    eapply star_greedy_all;
      [apply forallb_Forall; exact ws2_space | exact dlg_start |].
    cbn [before after caps].
    eapply star_greedy_end; [apply forallb_Forall; exact dlg_one_line |].
    cbn [before after caps set_cap].
    rewrite (consumed_eq dlg) by reflexivity.
    rewrite (consumed_eq dir) by reflexivity.
    reflexivity.
Qed.

Lemma or_else_empty (s : str) : or_else s [] = s.
Proof. destruct s; reflexivity. Qed.

Lemma structured_entry :
  parseLine (structured tok ws1 dir ws2 dlg)
  = {| character := toUpperCase (trim tok);
       dialogue := trim dlg;
       direction := trim dir |}.
Proof.
  destruct lineRegex_run as [bef E].
  unfold parseLine, str_match.
  rewrite (exec_from_here _ _ _
             (Result []
                (consumed (MState [] (structured tok ws1 dir ws2 dlg) [])
                           (MState bef [] [(3, dlg); (2, dir); (1, tok)]))
                [] [(3, dlg); (2, dir); (1, tok)])).
  - unfold group_text, group. cbn [groups assoc Nat.eqb].
    rewrite or_else_empty. reflexivity.
  - unfold match_at. rewrite E. reflexivity.
Qed.

End StructuredLine.

(** A script of one trimmed line with a colon is parsed into the entry
    of that line. *)
Lemma split_no_separator (sep : ascii) (s : str) :
  includes sep s = false -> split sep s = (s, []).
Proof.
  unfold includes. induction s as [|c s IH]; [reflexivity|].
  simpl. unfold isChar at 1. intros H. apply orb_false_iff in H.
  destruct H as [Hc Hs]. rewrite (IH Hs), Hc. reflexivity.
Qed.

Lemma single_line_script (line : str) :
  includes LF line = false -> trim line = line -> includes ":" line = true ->
  parsedLines line = [parseLine line].
Proof.
  intros Hn Ht Hc. unfold parsedLines, pieces.
  rewrite (split_no_separator LF line Hn). cbn [fst snd map].
  rewrite Ht. cbn [filter]. rewrite Hc. reflexivity.
Qed.

(** C7, as stated: a token with lowercase letters does not match the
    structured pattern; the line takes the fallback, which leaves the
    direction empty and the parenthetical in the dialogue. *)
Lemma lowercase_token_takes_fallback :
  parsedLines (lit "Bob: (aside) Hi")
  = [ {| character := lit "BOB";
         dialogue := lit "(aside) Hi";
         direction := [] |} ]
  /\ parsedLines (lit "Bob: (aside) Hi")
     <> [ {| character := lit "BOB";
             dialogue := lit "Hi";
             direction := lit "aside" |} ].
Proof. vm_compute. split; [reflexivity | discriminate]. Qed.

(** C7, amended. A line [TOKEN: (direction) dialogue] whose token is a
    non-empty run of uppercase letters, digits, white space, underscore,
    apostrophe and hyphen, whose direction holds no closing parenthesis,
    and whose direction and dialogue hold no line terminator, matches the
    structured pattern: the entry has the trimmed token in upper case,
    the trimmed text between the parentheses as direction, and the trimmed
    text after them as dialogue. *)
Theorem structured_line_entry (tok ws1 dir ws2 dlg : str) :
  truthy tok = true ->
  forallb isTokenChar tok = true ->
  forallb isSpace ws1 = true ->
  forallb (fun c => isDot c && negb (isChar ")" c)) dir = true ->
  forallb isSpace ws2 = true ->
  forallb isDot dlg = true ->
  starts_with isSpace dlg = false ->
  parseLine (structured tok ws1 dir ws2 dlg)
  = {| character := toUpperCase (trim tok);
       dialogue := trim dlg;
       direction := trim dir |}.
Proof. apply structured_entry. Qed.

Lemma structured_line_entry_witness :
  parseLine (lit "HAMLET: (To himself) To be, or not to be...")
  = {| character := lit "HAMLET";
       dialogue := lit "To be, or not to be...";
       direction := lit "To himself" |}.
Proof.
  exact (structured_line_entry (lit "HAMLET") (lit " ") (lit "To himself")
           (lit " ") (lit "To be, or not to be...")
           eq_refl eq_refl eq_refl eq_refl eq_refl eq_refl eq_refl).
Defined.

(** ** The pronunciation rewrite *)

Section Chars.

Lemma toUpper_word (c : ascii) : isWordChar (toUpper c) = isWordChar c.
Proof. destruct c as [[] [] [] [] [] [] [] []]; vm_compute; reflexivity. Qed.

Lemma ci_word (a c : ascii) :
  isWordChar a = true -> ci a c = true -> isWordChar c = true.
Proof.
  unfold ci. intros Ha E. apply Ascii.eqb_eq in E.
  rewrite <- toUpper_word, E, toUpper_word. exact Ha.
Qed.

Lemma word_not_syntax (c : ascii) :
  isWordChar c = true -> isSyntaxChar c = false.
Proof. destruct c as [[] [] [] [] [] [] [] []]; vm_compute; congruence. Qed.

End Chars.

Section Sequences.

Lemma star_run_ext g p (k1 k2 : mstate -> option mstate) :
  (forall st, k1 st = k2 st) ->
  forall aft bef cs, star_run g p k1 bef cs aft = star_run g p k2 bef cs aft.
Proof.
  intros E aft; induction aft as [|c t IH]; intros bef cs; simpl.
  - apply E.
  - rewrite IH, E. reflexivity.
Qed.

Lemma run_ext (r : regex) :
  forall k1 k2 : mstate -> option mstate,
    (forall st, k1 st = k2 st) -> forall st, run r k1 st = run r k2 st.
Proof.
  induction r as [p|g p|r1 IH1 r2 IH2|r IH|n r IH| | |];
    intros k1 k2 E st; simpl.
  - destruct (after st) as [|c t]; [reflexivity|]. rewrite E. reflexivity.
  - apply star_run_ext. exact E.
  - apply IH1. intros st'. apply IH2. exact E.
  - rewrite (IH k1 k2 E), E. reflexivity.
  - apply IH. intros st'. apply E.
  - rewrite E. reflexivity.
  - rewrite E. reflexivity.
  - rewrite E. reflexivity.
Qed.

Lemma run_Seq (rs : list regex) :
  forall k st, run (Seq rs) k st = fold_right (fun r k' => run r k') k rs st.
Proof.
  induction rs as [|r rs IH]; intros k st.
  - destruct st as [bef aft cs]. simpl. destruct aft; reflexivity.
  - destruct rs as [|r' rs]; [reflexivity|].
    change (Seq (r :: r' :: rs)) with (Cat r (Seq (r' :: rs))).
    cbn [run]. change (fold_right (fun r0 k' => run r0 k') k (r :: r' :: rs) st)
      with (run r (fold_right (fun r0 k' => run r0 k') k (r' :: rs)) st).
    apply run_ext. intros st'. apply IH.
Qed.

Lemma run_literals (key : str) (K : mstate -> option mstate) cs :
  forall bef aft,
    fold_right (fun r k' => run r k') K (map (fun a => Chr (ci a)) key)
      (MState bef aft cs)
    = if prefix_ci key aft
      then K (MState (rev (firstn (length key) aft) ++ bef)
                (skipn (length key) aft) cs)
      else None.
Proof.
  induction key as [|a key IH]; intros bef aft.
  - reflexivity.
  - destruct aft as [|c t]; [reflexivity|].
    cbn [map fold_right run after before caps prefix_ci length firstn skipn].
    destruct (ci a c); [|reflexivity]. cbn [andb].
    rewrite IH. cbn [rev]. rewrite <- app_assoc. reflexivity.
Qed.


Lemma match_at_key (key : str) (re : regex) (bef aft : str) :
  keyPattern key = Some re ->
  match_at re bef aft
  = if boundary bef aft && prefix_ci key aft
       && boundary (rev (firstn (length key) aft) ++ bef)
            (skipn (length key) aft)
    then Some (Result bef (firstn (length key) aft)
                 (skipn (length key) aft) [])
    else None.
Proof.
  unfold keyPattern. destruct (existsb isSyntaxChar key); [discriminate|].
  intros E.
  assert (R : re = Seq ([WordB] ++ map (fun a => Chr (ci a)) key ++ [WordB]))
    by congruence.
  rewrite R. clear E R.
  unfold match_at. rewrite run_Seq.
  cbn [app fold_right]. rewrite fold_right_app.
  cbn [run]. unfold at_boundary at 1. cbn [before after].
  destruct (boundary bef aft); [|reflexivity]. cbn [andb].
  rewrite run_literals.
  destruct (prefix_ci key aft); [|reflexivity]. cbn [andb fold_right run].
  unfold at_boundary. cbn [before after].
  destruct (boundary _ _); [|reflexivity].
  cbn [after caps]. f_equal. f_equal.
  apply consumed_eq. reflexivity.
Qed.

End Sequences.

Section WholeWords.

Variables (key value : str) (re : regex).
Hypothesis key_plain : Spec.plain_key key = true.
Hypothesis value_plain : Spec.plain_value value = true.
Hypothesis key_re : keyPattern key = Some re.

Lemma key_cons : exists a key', key = a :: key' /\ isWordChar a = true.
Proof.
  unfold Spec.plain_key in key_plain. apply andb_true_iff in key_plain.
  destruct key_plain as [T W]. destruct key as [|a key']; [discriminate|].
  exists a, key'. simpl in W. apply andb_true_iff in W. tauto.
Qed.

Lemma key_words : forallb isWordChar key = true.
Proof.
  unfold Spec.plain_key in key_plain. apply andb_true_iff in key_plain. tauto.
Qed.

Lemma substitution_plain (m : result) : substitution value m = value.
Proof.
  unfold Spec.plain_value, includes in value_plain.
  apply negb_true_iff in value_plain.
  induction value as [|c t IH]; [reflexivity|].
  simpl in value_plain. apply orb_false_iff in value_plain.
  destruct value_plain as [Hc Ht].
  cbn [substitution]. rewrite Hc. f_equal. apply IH. exact Ht.
Qed.

(** No match starts on a character that is not a word character, nor at
    the end of the text. *)
Lemma no_match_on_other (bef : str) (c : ascii) (t : str) :
  isWordChar c = false -> match_at re bef (c :: t) = None.
Proof.
  intros Hc. rewrite (match_at_key key re bef (c :: t) key_re).
  destruct key_cons as [a [key' [-> Ha]]]. cbn [prefix_ci].
  destruct (ci a c) eqn:E.
  - rewrite (ci_word a c Ha E) in Hc. discriminate.
  - rewrite andb_false_r. reflexivity.
Qed.

Lemma no_match_at_end (bef : str) : match_at re bef [] = None.
Proof.
  rewrite (match_at_key key re bef [] key_re).
  destruct key_cons as [a [key' [-> _]]]. cbn [prefix_ci].
  rewrite andb_false_r. reflexivity.
Qed.

(** No match starts inside a run of word characters. *)
Lemma no_match_inside (bef : str) (c : ascii) (t : str) :
  isWordAt bef = true -> isWordChar c = true ->
  match_at re bef (c :: t) = None.
Proof.
  intros Hb Hc. rewrite (match_at_key key re bef (c :: t) key_re).
  unfold boundary at 1. cbn [isWordAt]. rewrite Hb, Hc. reflexivity.
Qed.

Lemma replace_at_end (bef : str) : replace_go re value bef [] 0 = [].
Proof. cbn [replace_go]. rewrite no_match_at_end. reflexivity. Qed.

Lemma replace_other (bef : str) (c : ascii) (t : str) :
  isWordChar c = false ->
  replace_go re value bef (c :: t) 0
  = c :: replace_go re value (c :: bef) t 0.
Proof.
  intros Hc. cbn [replace_go]. rewrite no_match_on_other by exact Hc.
  reflexivity.
Qed.

Lemma replace_inside (w : str) :
  forall bef rest,
    isWordAt bef = true -> word_run w ->
    replace_go re value bef (w ++ rest) 0
    = w ++ replace_go re value (rev w ++ bef) rest 0.
Proof.
  induction w as [|c w IH]; intros bef rest Hb Hw; [reflexivity|].
  inversion Hw as [|? ? Hc Hw']; subst.
  cbn [app replace_go]. rewrite no_match_inside by assumption.
  rewrite IH by (try assumption; exact Hc).
  cbn [rev]. rewrite <- app_assoc. reflexivity.
Qed.

Lemma replace_skip (x : str) :
  forall bef rest,
    replace_go re value bef (x ++ rest) (length x)
    = replace_go re value (rev x ++ bef) rest 0.
Proof.
  induction x as [|c x IH]; intros bef rest; [reflexivity|].
  cbn [app length replace_go]. rewrite IH.
  cbn [rev]. rewrite <- app_assoc. reflexivity.
Qed.

(** From inside a word, the key matches the rest of a run exactly when
    the rest of the run is the key. *)
Lemma whole_run_check (k w : str) :
  forall bef rest,
    isWordAt bef = true -> word_run w -> forallb isWordChar k = true ->
    stops isWordChar rest ->
    prefix_ci k (w ++ rest)
    && boundary (rev (firstn (length k) (w ++ rest)) ++ bef)
         (skipn (length k) (w ++ rest))
    = Spec.same_word w k.
Proof.
  revert w; induction k as [|a k IH]; intros w bef rest Hb Hw Hk Hr.
  - cbn [prefix_ci length firstn skipn rev app andb]. unfold boundary.
    rewrite Hb. destruct w as [|c w].
    + cbn [app]. unfold stops in Hr. destruct rest; [reflexivity|].
      simpl in Hr. cbn [isWordAt]. rewrite Hr. reflexivity.
    + inversion Hw as [|? ? Hc _]; subst. cbn [app isWordAt].
      rewrite Hc. reflexivity.
  - simpl in Hk. apply andb_true_iff in Hk. destruct Hk as [Ha Hk].
    destruct w as [|c w].
    + cbn [app]. destruct rest as [|c t]; [reflexivity|].
      unfold stops in Hr. simpl in Hr. cbn [prefix_ci].
      destruct (ci a c) eqn:E.
      * rewrite (ci_word a c Ha E) in Hr. discriminate.
      * reflexivity.
    + inversion Hw as [|? ? Hc Hw']; subst.
      cbn [app prefix_ci length firstn skipn rev].
      rewrite <- andb_assoc, <- app_assoc. cbn [app].
      rewrite (IH w (c :: bef) rest); try assumption.
      reflexivity.
Qed.

Lemma same_word_length (a b : str) :
  Spec.same_word a b = true -> length a = length b.
Proof.
  unfold Spec.same_word, toUpperCase. intros H. apply str_eqb_eq in H.
  apply (f_equal (@length ascii)) in H. rewrite !length_map in H. exact H.
Qed.

(** At the start of a run of word characters, the run is replaced when it
    is the key and copied otherwise. *)
Lemma replace_run (c : ascii) (w : str) (bef rest : str) :
  isWordAt bef = false -> word_run (c :: w) -> stops isWordChar rest ->
  replace_go re value bef ((c :: w) ++ rest) 0
  = (if Spec.same_word (c :: w) key then value else c :: w)
    ++ replace_go re value (rev (c :: w) ++ bef) rest 0.
Proof.
  intros Hb Hw Hr. inversion Hw as [|? ? Hc Hw']; subst.
  cbn [app replace_go].
  rewrite (match_at_key key re bef (c :: w ++ rest) key_re).
  unfold boundary at 1. cbn [isWordAt]. rewrite Hb, Hc. cbn [xorb andb].
  destruct key_cons as [a [key' [Ek Ha]]].
  pose proof key_words as Hk. rewrite Ek in Hk |- *.
  simpl in Hk. apply andb_true_iff in Hk. destruct Hk as [_ Hk'].
  cbn [prefix_ci length firstn skipn rev].
  rewrite <- andb_assoc, <- app_assoc. cbn [app].
  rewrite (whole_run_check key' w (c :: bef) rest); try assumption.
  change (ci a c && Spec.same_word w key')
    with (Spec.same_word (c :: w) (a :: key')).
  destruct (Spec.same_word (c :: w) (a :: key')) eqn:S.
  - apply same_word_length in S. simpl in S. injection S as S.
    rewrite <- S, firstn_app, Nat.sub_diag, firstn_all. cbn [firstn].
    rewrite app_nil_r. cbn [matched length].
    rewrite substitution_plain, replace_skip.
    cbn [rev]. rewrite <- app_assoc. reflexivity.
  - rewrite (replace_inside w (c :: bef) rest); try assumption.
    cbn [rev app]. rewrite <- app_assoc. reflexivity.
Qed.

Lemma substitute_run (w : str) :
  forall cur rest,
    word_run w -> stops isWordChar rest ->
    Spec.substitute_words key value cur (w ++ rest)
    = Spec.flush key value (rev w ++ cur)
      ++ match rest with
         | [] => []
         | c :: t => c :: Spec.substitute_words key value [] t
         end.
Proof.
  induction w as [|x w IH]; intros cur rest Hw Hr.
  - cbn [app rev]. destruct rest as [|c t].
    + cbn [Spec.substitute_words]. symmetry. apply app_nil_r.
    + unfold stops in Hr. simpl in Hr.
      cbn [Spec.substitute_words]. rewrite Hr. reflexivity.
  - inversion Hw as [|? ? Hx Hw']; subst.
    cbn [app Spec.substitute_words]. rewrite Hx.
    rewrite IH by assumption.
    cbn [rev]. rewrite <- app_assoc. reflexivity.
Qed.

Lemma flush_run (c : ascii) (w : str) :
  Spec.flush key value (rev (c :: w))
  = if Spec.same_word (c :: w) key then value else c :: w.
Proof.
  unfold Spec.flush. destruct (rev (c :: w)) as [|y l] eqn:E.
  - apply (f_equal (@length ascii)) in E. rewrite length_rev in E.
    discriminate.
  - rewrite <- E, rev_involutive. reflexivity.
Qed.

Lemma word_span (s : str) :
  exists w rest,
    s = w ++ rest /\ word_run w /\ stops isWordChar rest
    /\ length rest <= length s.
Proof.
  induction s as [|c s [w [rest [E [Hw [Hr Hl]]]]]].
  - exists [], []. repeat split; constructor.
  - destruct (isWordChar c) eqn:Hc.
    + exists (c :: w), rest. rewrite E. repeat split.
      * constructor; assumption.
      * exact Hr.
      * simpl. rewrite length_app in *. lia.
    + exists [], (c :: s). repeat split.
      * constructor.
      * exact Hc.
      * lia.
Qed.

(** The pattern-driven replacement is the replacement of whole runs. *)
Lemma replace_go_words (n : nat) :
  forall aft bef,
    length aft <= n -> isWordAt bef = false ->
    replace_go re value bef aft 0 = Spec.substitute_words key value [] aft.
Proof.
  induction n as [|n IH]; intros aft bef Hn Hb.
  - destruct aft; [|simpl in Hn; lia]. apply replace_at_end.
  - destruct aft as [|c t]; [apply replace_at_end|].
    simpl in Hn. destruct (isWordChar c) eqn:Hc.
    + destruct (word_span t) as [w [rest [E [Hw [Hr Hl]]]]]. subst t.
      change (c :: w ++ rest) with ((c :: w) ++ rest).
      assert (Hcw : word_run (c :: w)) by (constructor; assumption).
      rewrite replace_run by assumption.
      rewrite (substitute_run (c :: w) [] rest Hcw Hr).
      rewrite app_nil_r, flush_run. f_equal.
      destruct rest as [|c' t']; [apply replace_at_end|].
      unfold stops in Hr. simpl in Hr.
      rewrite replace_other by exact Hr. f_equal.
      apply IH; [simpl in Hl; lia | exact Hr].
    + rewrite replace_other by exact Hc.
      cbn [Spec.substitute_words Spec.flush app]. rewrite Hc. cbn [app].
      f_equal. apply IH; [lia | exact Hc].
Qed.

Lemma replace_all_words (d : str) :
  replace_all re value d = Spec.rewrite_words key value d.
Proof.
  unfold replace_all, Spec.rewrite_words.
  apply (replace_go_words (length d)); [apply Nat.le_refl | reflexivity].
Qed.

(** A run of word characters that is not the key is left as it is. *)
Lemma rewrite_other_word (d : str) :
  forallb isWordChar d = true -> Spec.same_word d key = false ->
  Spec.rewrite_words key value d = d.
Proof.
  intros Hd Hs. unfold Spec.rewrite_words.
  rewrite <- (app_nil_r d) at 1.
  rewrite substitute_run;
    [| apply forallb_Forall; exact Hd | reflexivity].
  rewrite !app_nil_r. destruct d as [|c w]; [reflexivity|].
  rewrite flush_run, Hs. reflexivity.
Qed.

End WholeWords.

Section Rewrite.

Lemma keyPattern_plain (key : str) :
  Spec.plain_key key = true -> exists re, keyPattern key = Some re.
Proof.
  intros H. unfold Spec.plain_key in H. apply andb_true_iff in H.
  destruct H as [_ H]. unfold keyPattern.
  assert (E : existsb isSyntaxChar key = false).
  { induction key as [|c key' IH]; [reflexivity|].
    simpl in H. apply andb_true_iff in H. destruct H as [Hc H].
    simpl. rewrite (word_not_syntax c Hc). apply IH. exact H. }
  rewrite E. eexists. reflexivity.
Qed.

Lemma rewriteDialogue_words (m : list (str * str)) :
  forall d,
    forallb Spec.plain_entry m = true ->
    rewriteDialogue m d = Some (fold_left Spec.step_words m d).
Proof.
  unfold rewriteDialogue.
  induction m as [|[key value] m IH]; intros d Hm; [reflexivity|].
  simpl in Hm. apply andb_true_iff in Hm. destruct Hm as [He Hm].
  apply andb_true_iff in He. destruct He as [Hk Hv].
  destruct (keyPattern_plain key Hk) as [re Hre].
  cbn [fold_left]. rewrite Hre.
  rewrite (replace_all_words key value re Hk Hv Hre).
  apply IH. exact Hm.
Qed.

Lemma fold_other_words (m : list (str * str)) (d : str) :
  forallb isWordChar d = true ->
  forallb (fun e => negb (Spec.same_word d (fst e))) m = true ->
  fold_left Spec.step_words m d = d.
Proof.
  intros Hd. induction m as [|[key value] m IH]; intros Hm; [reflexivity|].
  simpl in Hm. apply andb_true_iff in Hm. destruct Hm as [Hs Hm].
  apply negb_true_iff in Hs.
  cbn [fold_left Spec.step_words].
  rewrite (rewrite_other_word key value d Hd Hs). apply IH. exact Hm.
Qed.

End Rewrite.

(** C8, as stated: the entries are applied one after another to the text
    the previous ones produced, so the value written for one key is
    rewritten by a later key.  With [cat=dog] and [dog=bird] the word
    [cat] is spoken as [bird], not as the value mapped to it. *)
Lemma later_entry_rewrites_earlier_value :
  let m := buildPronunciationMap (lit "cat=dog" ++ LF :: lit "dog=bird") in
  m = [(lit "cat", lit "dog"); (lit "dog", lit "bird")]
  /\ rewriteDialogue m (lit "cat") = Some (lit "bird")
  /\ Spec.rewrite m (lit "cat") = lit "dog"
  /\ rewriteDialogue m (lit "cat") <> Some (Spec.rewrite m (lit "cat")).
Proof. vm_compute. repeat split. discriminate. Qed.

(** Two more limits of the rewrite: an apostrophe ends a word for the
    pattern, and a dollar sign in a value is read as a replacement
    pattern. *)
Lemma apostrophe_ends_a_word :
  rewriteDialogue [(lit "don", lit "dawn")] (lit "I don't")
  = Some (lit "I dawn't").
Proof. vm_compute. reflexivity. Qed.

Lemma dollar_in_value_is_a_pattern :
  rewriteDialogue [(lit "gold", lit "$$")] (lit "gold") = Some (lit "$").
Proof. vm_compute. reflexivity. Qed.

(** C8, amended. For a map whose keys are non-empty runs of word
    characters (letters, digits, underscore) and whose values hold no
    dollar sign, the rewrite applies the entries one after another in
    insertion order, each to the text the previous ones produced; each
    step replaces exactly the maximal runs of word characters that are the
    key up to letter case and leaves every other run as it is.  So a word
    that only contains a key is never changed. *)
Theorem rewrite_whole_words_in_turn (m : list (str * str)) (dialogue : str) :
  forallb Spec.plain_entry m = true ->
  rewriteDialogue m dialogue = Some (fold_left Spec.step_words m dialogue)
  /\ (forallb isWordChar dialogue = true ->
      forallb (fun e => negb (Spec.same_word dialogue (fst e))) m = true ->
      rewriteDialogue m dialogue = Some dialogue).
Proof.
  intros Hm. split.
  - apply rewriteDialogue_words. exact Hm.
  - intros Hd Hk. rewrite rewriteDialogue_words by exact Hm.
    rewrite fold_other_words by assumption. reflexivity.
Qed.

Lemma rewrite_whole_words_in_turn_witness :
  rewriteDialogue [(lit "Siobhan", lit "Shiv-awn")]
    (lit "Hello SIOBHAN, not Siobhans")
  = Some (lit "Hello Shiv-awn, not Siobhans").
Proof.
  exact (proj1 (rewrite_whole_words_in_turn
                  [(lit "Siobhan", lit "Shiv-awn")]
                  (lit "Hello SIOBHAN, not Siobhans") eq_refl)).
Defined.

(** ** Recognition errors *)

Section Recognition.
Local Open Scope Z_scope.

Ltac engine_steps :=
  cbv [Engine.deliver Engine.events_of fold_left Engine.dispatch
       Engine.onerror Engine.onend Engine.fire Engine.advance
       Engine.setRecognition Engine.setStatus Engine.setTimeout
       Engine.setTimers Engine.setRecording Engine.setCurrentLineIndex
       Engine.practicing Engine.cursor Engine.status Engine.transcript
       Engine.accuracyReport Engine.recognitionRef
       Engine.speechUtteranceRef Engine.recording Engine.timers].

Variable r : Engine.Render.
Hypothesis practising : Engine.isPracticing r = true.
Hypothesis supported : Engine.isSpeechSupported r = true.

(** In dialogue mode the effect answers a line of the user's character by
    listening. *)
Lemma dialogue_turn_listens (s : Engine.Store) (line : LineEntry) :
  0 <= Engine.currentLineIndex r ->
  nth_error (Engine.lines r) (Z.to_nat (Engine.currentLineIndex r))
  = Some line ->
  character line = Engine.selectedCharacter r ->
  Engine.practiceMode r = dialogue_mode ->
  Engine.practiceEffect r s
  = Some (Engine.startRecognition r
            (Engine.setStatus (lit "Your turn. Listening...")
               (Engine.setAccuracyReport None s))).
Proof.
  intros H0 Hl Hc Hm. unfold Engine.practiceEffect, Engine.processLine.
  rewrite practising, Hl, Hc, Hm, str_eqb_refl.
  assert (Hlt : (Z.to_nat (Engine.currentLineIndex r)
                 < length (Engine.lines r))%nat).
  { apply nth_error_Some. rewrite Hl. discriminate. }
  assert (G : (Engine.currentLineIndex r
               >=? Z.of_nat (length (Engine.lines r))) = false) by lia.
  assert (N : (Engine.currentLineIndex r <? 0) = false) by lia.
  rewrite G, N. reflexivity.
Qed.

(** In read-along mode the end of the utterance of a user line starts the
    listening. *)
Lemma read_along_turn_listens (s : Engine.Store) (text : str) :
  Engine.practiceMode r = read_along ->
  Engine.speechUtteranceRef s
  = Some {| Engine.text := text; Engine.spokenBy := r;
            Engine.isUserLine := true |} ->
  Engine.dispatch s Engine.UtteranceEnd = Engine.startRecognition r s.
Proof.
  intros Hm Hu. unfold Engine.dispatch. rewrite Hu. simpl.
  rewrite Hm. reflexivity.
Qed.

Lemma error_then_end (s : Engine.Store) (error : str) :
  str_eqb error (lit "aborted") = false ->
  let listening := Engine.startRecognition r s in
  let after :=
    Engine.deliver (Engine.events_of (Engine.Failed error)) listening in
  Engine.status after = lit "Sorry, I didn't catch that."
  /\ after
     = Engine.setStatus (lit "Sorry, I didn't catch that.")
         (Engine.deliver (Engine.events_of Engine.Silence) listening)
  /\ Engine.timers after = Engine.timers s ++ [Engine.AdvanceLine r]
  /\ Engine.practicing after = Engine.practicing s
  /\ Engine.cursor (Engine.fire (Engine.AdvanceLine r) after)
     = advanceLine (Engine.loopStartLine r) (Engine.loopEndLine r)
         (Engine.cursor s).
Proof.
  intros He listening after. subst after listening.
  destruct s as [p c st tr ar rr ur rec tm].
  unfold Engine.startRecognition. rewrite supported. cbn [negb].
  engine_steps. rewrite He. cbn [negb]. engine_steps. rewrite practising.
  destruct rec; engine_steps; repeat split.
Qed.

End Recognition.

(** C9. When the recognition service reports an error other than
    [aborted] during a listening turn, the status becomes the message for
    the user, and the end of the recognition session, which the service
    signals after the error, does what it does after any session: it stops
    the recorder and schedules the advance of the cursor.  The session
    stays in practice. *)
Theorem recognition_error_keeps_turn_moving
    (r : Engine.Render) (s : Engine.Store) (error : str) :
  Engine.isPracticing r = true ->
  Engine.isSpeechSupported r = true ->
  str_eqb error (lit "aborted") = false ->
  let listening := Engine.startRecognition r s in
  let after :=
    Engine.deliver (Engine.events_of (Engine.Failed error)) listening in
  Engine.status after = lit "Sorry, I didn't catch that."
  /\ after
     = Engine.setStatus (lit "Sorry, I didn't catch that.")
         (Engine.deliver (Engine.events_of Engine.Silence) listening)
  /\ Engine.timers after = Engine.timers s ++ [Engine.AdvanceLine r]
  /\ Engine.practicing after = Engine.practicing s
  /\ Engine.cursor (Engine.fire (Engine.AdvanceLine r) after)
     = advanceLine (Engine.loopStartLine r) (Engine.loopEndLine r)
         (Engine.cursor s).
Proof. intros Hp Hs He. apply error_then_end; assumption. Qed.

Lemma recognition_error_keeps_turn_moving_witness :
  Engine.status
    (Engine.deliver (Engine.events_of (Engine.Failed (lit "no-speech")))
       (Engine.startRecognition Engine.example_render
          (Engine.setStatus (lit "Your turn. Listening...")
             (Engine.setAccuracyReport None Engine.example_store))))
  = lit "Sorry, I didn't catch that.".
Proof.
  exact (proj1 (recognition_error_keeps_turn_moving Engine.example_render
                  (Engine.setStatus (lit "Your turn. Listening...")
                     (Engine.setAccuracyReport None Engine.example_store))
                  (lit "no-speech") eq_refl eq_refl eq_refl)).
Defined.

(* ================================================================== *)
(** * Part III. Further properties of the code                          *)
(* ================================================================== *)

(** ** More on the script parser *)

Section Lines.

Lemma pieces_split_app (sep : ascii) (a b : str) :
  pieces (split sep (a ++ sep :: b))
  = pieces (split sep a) ++ pieces (split sep b).
Proof.
  unfold pieces. induction a as [|c a IH]; cbn [app split].
  - destruct (split sep b) as [h r]. rewrite Ascii.eqb_refl. reflexivity.
  - destruct (split sep (a ++ sep :: b)) as [h r].
    destruct (split sep a) as [h' r']. cbn [fst snd] in IH.
    cbn [app] in IH. injection IH as -> ->.
    destruct (Ascii.eqb c sep); reflexivity.
Qed.

(** X1. The parser works line by line: the entries of two texts joined by
    a line feed are the entries of the first followed by the entries of
    the second. *)
Theorem parsedLines_app (a b : str) :
  parsedLines (a ++ LF :: b) = parsedLines a ++ parsedLines b.
Proof.
  unfold parsedLines. rewrite pieces_split_app.
  rewrite map_app, filter_app, map_app, filter_app. reflexivity.
Qed.

End Lines.

Section Inversion.

(** A star that succeeds has taken some class characters and handed the
    rest to the continuation. *)
Lemma star_run_inv g p (k : mstate -> option mstate) cs res :
  forall aft bef,
    star_run g p k bef cs aft = Some res ->
    exists a b,
      aft = a ++ b /\ Forall (fun c => p c = true) a
      /\ k (MState (rev a ++ bef) b cs) = Some res.
Proof.
  induction aft as [|c t IH]; intros bef H.
  - exists [], []. repeat split; [constructor | exact H].
  - cbn [star_run] in H. destruct (p c) eqn:Hc.
    + assert (D : star_run g p k (c :: bef) cs t = Some res
                  \/ k (MState bef (c :: t) cs) = Some res).
      { destruct g.
        - destruct (star_run true p k (c :: bef) cs t); [left|right]; exact H.
        - destruct (k (MState bef (c :: t) cs)); [right|left]; exact H. }
      destruct D as [D|D].
      * destruct (IH _ D) as [a [b [E [Fa Hk]]]].
        exists (c :: a), b. repeat split.
        -- rewrite E. reflexivity.
        -- constructor; assumption.
        -- cbn [rev]. rewrite <- app_assoc. exact Hk.
      * exists [], (c :: t). repeat split; [constructor | exact D].
    + exists [], (c :: t). repeat split; [constructor | exact H].
Qed.

(** A pattern without group [n] leaves capture [n] as it found it. *)
Lemma run_keeps_group (n : nat) (r : regex) :
  no_group n r = true ->
  forall (k : mstate -> option mstate) st res,
    run r k st = Some res ->
    exists st', k st' = Some res /\ assoc n (caps st') = assoc n (caps st).
Proof.
  induction r as [p|g p|r1 IH1 r2 IH2|r IH|m r IH| | |];
    intros Hn k st res H; cbn [run no_group] in *.
  - destruct (after st) as [|c t]; [discriminate|].
    destruct (p c); [|discriminate]. eexists. split; [exact H | reflexivity].
  - apply star_run_inv in H. destruct H as [a [b [_ [_ H]]]].
    eexists. split; [exact H | reflexivity].
  - apply andb_true_iff in Hn. destruct Hn as [H1 H2].
    destruct (IH1 H1 _ _ _ H) as [st1 [K1 E1]].
    destruct (IH2 H2 _ _ _ K1) as [st2 [K2 E2]].
    exists st2. split; [exact K2 | congruence].
  - destruct (run r k st) eqn:R.
    + injection H as ->. apply (IH Hn _ _ _ R).
    + exists st. split; [exact H | reflexivity].
  - apply andb_true_iff in Hn. destruct Hn as [Hm Hr].
    destruct (IH Hr _ _ _ H) as [st1 [K1 E1]].
    eexists. split; [exact K1|].
    cbn [set_cap caps assoc]. apply negb_true_iff in Hm. rewrite Hm.
    exact E1.
  - destruct (before st); [|discriminate].
    exists st. split; [exact H | reflexivity].
  - destruct (after st); [|discriminate].
    exists st. split; [exact H | reflexivity].
  - destruct (at_boundary st); [|discriminate].
    exists st. split; [exact H | reflexivity].
Qed.

Lemma token_not_colon (c : ascii) : isTokenChar c = true -> isChar ":" c = false.
Proof. destruct c as [[] [] [] [] [] [] [] []]; vm_compute; congruence. Qed.

Lemma split_at_first (sep : ascii) (a b : str) :
  includes sep a = false ->
  split sep (a ++ sep :: b) = (a, pieces (split sep b)).
Proof.
  unfold includes, pieces. induction a as [|c a IH]; cbn [app split existsb].
  - intros _. destruct (split sep b). rewrite Ascii.eqb_refl. reflexivity.
  - unfold isChar at 1. intros H. apply orb_false_iff in H.
    destruct H as [Hc Ha]. rewrite (IH Ha), Hc. reflexivity.
Qed.

Lemma tokens_no_colon (a : str) :
  Forall (fun c => isTokenChar c = true) a -> includes ":" a = false.
Proof.
  unfold includes. induction 1 as [|c a Hc _ IH]; [reflexivity|].
  simpl. rewrite (token_not_colon c Hc). exact IH.
Qed.

(** What a match of the line pattern at the start of a line says about
    the line: it starts with a non-empty run of token characters followed
    by a colon, and group 1 is that run. *)
Lemma lineRegex_inv (line : str) (res : mstate) :
  run lineRegex Some (MState [] line []) = Some res ->
  exists tok rest,
    line = tok ++ ":"%char :: rest
    /\ tok <> []
    /\ Forall (fun c => isTokenChar c = true) tok
    /\ assoc 1 (caps res) = Some tok.
Proof.
  cbn [lineRegex Seq Plus run before after caps]. intros H.
  destruct line as [|c t]; [discriminate|].
  destruct (isTokenChar c) eqn:Hc; [|discriminate].
  apply star_run_inv in H. destruct H as [a [b [E [Fa H]]]].
  cbn [before after caps set_cap] in H.
  rewrite (consumed_eq (c :: a)) in H
    by (simpl; rewrite app_nil_r; reflexivity).
  destruct b as [|d b]; [discriminate|].
  destruct (isChar ":" d) eqn:Hd; [|discriminate].
  apply Ascii.eqb_eq in Hd. subst d.
  match type of H with
  | star_run true isSpace ?K ?bef ?cs ?aft = _ =>
      change (run (Cat (Star true isSpace)
                     (Cat (Opt (Seq [ Chr (isChar "(");
                                      Group 2 (Star false isDot);
                                      Chr (isChar ")");
                                      Star true isSpace ]))
                        (Cat (Group 3 (Star true isDot)) Eol)))
                Some (MState bef aft cs) = Some res) in H
  end.
  apply (run_keeps_group 1) in H; [|reflexivity].
  destruct H as [st' [K E1]]. injection K as ->.
  exists (c :: a), b. repeat split.
  - rewrite E. reflexivity.
  - discriminate.
  - constructor; assumption.
  - exact E1.
Qed.

Lemma lineRegex_anchored (aft : str) :
  forall bef, bef <> [] -> exec_from lineRegex bef aft = None.
Proof.
  induction aft as [|c t IH]; intros bef Hb.
  - destruct bef; [congruence|]. reflexivity.
  - cbn [exec_from]. rewrite IH by discriminate.
    destruct bef; [congruence|]. reflexivity.
Qed.

Lemma str_match_inv (line : str) (m : result) :
  str_match lineRegex line = Some m ->
  exists tok rest,
    line = tok ++ ":"%char :: rest
    /\ tok <> []
    /\ Forall (fun c => isTokenChar c = true) tok
    /\ group 1 m = Some tok.
Proof.
  unfold str_match. intros H.
  assert (M : match_at lineRegex [] line = Some m).
  { destruct line as [|c t]; cbn [exec_from] in H.
    - destruct (match_at lineRegex [] []); [exact H | discriminate].
    - destruct (match_at lineRegex [] (c :: t)); [exact H|].
      rewrite lineRegex_anchored in H by discriminate. discriminate. }
  unfold match_at in M.
  destruct (run lineRegex Some (MState [] line [])) as [res|] eqn:R;
    [|discriminate].
  injection M as <-. unfold group. cbn [groups].
  apply (lineRegex_inv _ _ R).
Qed.

(** X2. On either path the character of an entry is the text before the
    first colon of the line, trimmed and in upper case. *)
Theorem character_before_first_colon (line : str) :
  character (parseLine line)
  = toUpperCase (trim (fst (split ":" line))).
Proof.
  unfold parseLine. destruct (str_match lineRegex line) as [m|] eqn:M.
  - destruct (str_match_inv _ _ M) as [tok [rest [E [_ [Ft G]]]]].
    cbn [character]. unfold group_text. rewrite G, E.
    rewrite split_at_first by (apply tokens_no_colon; exact Ft).
    reflexivity.
  - destruct (split ":" line). reflexivity.
Qed.

Lemma join_pieces (sep : ascii) (s : str) :
  join sep (pieces (split sep s)) = s.
Proof.
  unfold pieces. induction s as [|c s IH]; [reflexivity|].
  cbn [split]. destruct (split sep s) as [h r]. cbn [fst snd] in *.
  destruct (Ascii.eqb c sep) eqn:E.
  - apply Ascii.eqb_eq in E. subst c. cbn [fst snd].
    change (join sep ([] :: h :: r)) with ([] ++ sep :: join sep (h :: r)).
    rewrite IH. reflexivity.
  - cbn [fst snd]. destruct r as [|x r]; cbn [join] in *.
    + rewrite IH. reflexivity.
    + rewrite <- IH. reflexivity.
Qed.

(** X3. A line whose name part, the text before the first colon, is empty
    or holds a character outside the token class takes the fallback: the
    direction is empty and the dialogue is all the text after the first
    colon, trimmed, a parenthetical included. *)
Theorem fallback_entry (name rest : str) :
  includes ":" name = false ->
  truthy name && forallb isTokenChar name = false ->
  parseLine (name ++ ":"%char :: rest)
  = {| character := toUpperCase (trim name);
       dialogue := trim rest;
       direction := [] |}.
Proof.
  intros Hn Hbad. unfold parseLine.
  destruct (str_match lineRegex (name ++ ":"%char :: rest)) as [m|] eqn:M.
  - exfalso. destruct (str_match_inv _ _ M) as [tok [rest' [E [Hne [Ft _]]]]].
    assert (S1 := split_at_first ":" name rest Hn).
    assert (S2 := split_at_first ":" tok rest' (tokens_no_colon tok Ft)).
    rewrite E in S1. rewrite S1 in S2. injection S2 as -> _.
    destruct tok as [|c tok]; [congruence|].
    cbn [truthy andb] in Hbad.
    assert (forallb isTokenChar (c :: tok) = true).
    { apply forallb_forall. apply Forall_forall. exact Ft. }
    congruence.
  - rewrite split_at_first by exact Hn.
    rewrite join_pieces. reflexivity.
Qed.

Lemma fallback_entry_witness :
  parseLine (lit "Dr. Who: (aside) Run: now")
  = {| character := lit "DR. WHO";
       dialogue := lit "(aside) Run: now";
       direction := [] |}.
Proof.
  exact (fallback_entry (lit "Dr. Who") (lit " (aside) Run: now")
           eq_refl eq_refl).
Defined.

End Inversion.

Section Trimming.

Lemma dropWhile_stops (p : ascii -> bool) (s : str) :
  starts_with p (dropWhile p s) = false.
Proof.
  induction s as [|c s IH]; [reflexivity|].
  simpl. destruct (p c) eqn:E; [exact IH | simpl; exact E].
Qed.

Lemma dropWhile_id (p : ascii -> bool) (s : str) :
  starts_with p s = false -> dropWhile p s = s.
Proof. destruct s as [|c s]; simpl; [reflexivity | intros ->; reflexivity]. Qed.

Lemma dropWhile_suffix (p : ascii -> bool) (s : str) :
  exists w, s = w ++ dropWhile p s.
Proof.
  induction s as [|c s [w IH]]; [exists []; reflexivity|].
  simpl. destruct (p c).
  - exists (c :: w). simpl. rewrite <- IH. reflexivity.
  - exists []. reflexivity.
Qed.

Lemma trimEnd_idem (s : str) : trimEnd (trimEnd s) = trimEnd s.
Proof.
  unfold trimEnd. rewrite rev_involutive.
  rewrite (dropWhile_id _ _ (dropWhile_stops isSpace (rev s))). reflexivity.
Qed.

Lemma trimEnd_head (s : str) :
  starts_with isSpace s = false -> starts_with isSpace (trimEnd s) = false.
Proof.
  intros H. unfold trimEnd.
  destruct (dropWhile_suffix isSpace (rev s)) as [w E].
  apply (f_equal (@rev ascii)) in E. rewrite rev_involutive, rev_app_distr in E.
  destruct (rev (dropWhile isSpace (rev s))) as [|c u]; [reflexivity|].
  rewrite E in H. exact H.
Qed.

Lemma trim_idem (s : str) : trim (trim s) = trim s.
Proof.
  unfold trim at 1. unfold trimStart.
  rewrite dropWhile_id.
  - unfold trim. apply trimEnd_idem.
  - unfold trim. apply trimEnd_head. apply dropWhile_stops.
Qed.

Lemma toUpper_space (c : ascii) : isSpace (toUpper c) = isSpace c.
Proof. destruct c as [[] [] [] [] [] [] [] []]; vm_compute; reflexivity. Qed.

Lemma toUpper_not_lower (c : ascii) : isLower (toUpper c) = false.
Proof. destruct c as [[] [] [] [] [] [] [] []]; vm_compute; reflexivity. Qed.

Lemma dropWhile_toUpperCase (s : str) :
  dropWhile isSpace (toUpperCase s) = toUpperCase (dropWhile isSpace s).
Proof.
  unfold toUpperCase. induction s as [|c s IH]; [reflexivity|].
  simpl. rewrite toUpper_space. destruct (isSpace c); [exact IH | reflexivity].
Qed.

Lemma trim_toUpperCase (s : str) : trim (toUpperCase s) = toUpperCase (trim s).
Proof.
  unfold trim, trimEnd, trimStart. rewrite dropWhile_toUpperCase.
  unfold toUpperCase at 1. rewrite <- map_rev.
  fold (toUpperCase (rev (dropWhile isSpace s))).
  rewrite dropWhile_toUpperCase. unfold toUpperCase. rewrite map_rev.
  reflexivity.
Qed.

Lemma toUpperCase_no_lower (s : str) :
  forallb (fun c => negb (isLower c)) (toUpperCase s) = true.
Proof.
  unfold toUpperCase. induction s as [|c s IH]; [reflexivity|].
  simpl. rewrite toUpper_not_lower. exact IH.
Qed.

Lemma parseLine_normal (line : str) :
  let e := parseLine line in
  forallb (fun c => negb (isLower c)) (character e) = true
  /\ trim (character e) = character e
  /\ trim (dialogue e) = dialogue e
  /\ trim (direction e) = direction e.
Proof.
  unfold parseLine. destruct (str_match lineRegex line) as [m|].
  - cbn [character dialogue direction]. rewrite or_else_empty.
    repeat split.
    + apply toUpperCase_no_lower.
    + rewrite trim_toUpperCase, trim_idem. reflexivity.
    + apply trim_idem.
    + destruct (group 2 m); [apply trim_idem | reflexivity].
  - destruct (split ":" line) as [name rest].
    cbn [character dialogue direction]. repeat split.
    + apply toUpperCase_no_lower.
    + rewrite trim_toUpperCase, trim_idem. reflexivity.
    + apply trim_idem.
Qed.

(** X4. Every entry of every script is normalized: its character holds no
    lowercase letter, and trimming its character, its dialogue or its
    direction changes nothing. *)
Theorem entries_normalized (script : str) :
  Forall (fun e =>
            forallb (fun c => negb (isLower c)) (character e) = true
            /\ trim (character e) = character e
            /\ trim (dialogue e) = dialogue e
            /\ trim (direction e) = direction e)
    (parsedLines script).
Proof.
  apply Forall_forall. intros e He. unfold parsedLines in He.
  apply filter_In in He. destruct He as [He _].
  apply in_map_iff in He. destruct He as [line [<- _]].
  apply parseLine_normal.
Qed.

End Trimming.

(** ** More on the accuracy scorer *)

Section Alignment.

Lemma skipn_nth (tw : list str) (i : nat) :
  i < length tw -> skipn i tw = nth i tw [] :: skipn (S i) tw.
Proof.
  revert i; induction tw as [|t tw IH]; intros i H; [simpl in H; lia|].
  destruct i as [|i]; [reflexivity|].
  simpl in H. cbn [skipn nth]. apply IH. lia.
Qed.

(** The loop, from any place it can be in, computes the alignment of the
    entries still to visit with the transcript words from the cursor on. *)
Lemma score_loop_align (tw : list str) (todo done : list WordReport) :
  forall tIdx,
    score_loop (length todo) (length done) tIdx tw (done ++ todo)
    = done ++ Spec.align (map word todo) (skipn tIdx tw).
Proof.
  revert done; induction todo as [|e todo IH]; intros done tIdx.
  - reflexivity.
  - cbn [length score_loop map]. rewrite nth_error_middle.
    destruct (tIdx <? length tw) eqn:L.
    + apply Nat.ltb_lt in L. cbn [andb].
      rewrite (skipn_nth tw tIdx L) at 1. cbn [Spec.align].
      destruct (str_eqb (word e) (nth tIdx tw [])).
      * rewrite set_status_middle.
        specialize (IH (done ++ [ {| word := word e; status := correct |} ])
                      (S tIdx)).
        rewrite length_app, Nat.add_1_r, <- !app_assoc in IH.
        cbn [app] in IH. exact IH.
      * rewrite set_status_middle.
        specialize (IH (done ++ [ {| word := word e; status := incorrect |} ])
                      tIdx).
        rewrite length_app, Nat.add_1_r, <- !app_assoc in IH.
        cbn [app] in IH. rewrite <- (skipn_nth tw tIdx L). exact IH.
    + apply Nat.ltb_ge in L. cbn [andb].
      rewrite set_status_middle.
      specialize (IH (done ++ [ {| word := word e; status := incorrect |} ])
                    tIdx).
      rewrite length_app, Nat.add_1_r, <- !app_assoc in IH.
      cbn [app] in IH. rewrite IH, (skipn_all2 tw L). reflexivity.
Qed.

Lemma loop_is_alignment (original transcript : str) :
  calculateAccuracy original transcript
  = Spec.align (words original) (words transcript).
Proof.
  unfold calculateAccuracy. cbv zeta.
  pose proof (score_loop_align (words transcript)
                (map (fun w => {| word := w; status := missing |})
                   (words original)) [] 0) as H.
  cbn [app length skipn] in H. rewrite H, map_map. cbn [word].
  rewrite map_id. reflexivity.
Qed.

(** X5. The index loop with its transcript cursor computes the greedy
    alignment of the normalized words of the two texts: an expected word
    is correct when it equals the transcript word under the cursor, which
    then moves on, and incorrect otherwise, the cursor staying. *)
Theorem calculateAccuracy_align (original transcript : str) :
  calculateAccuracy original transcript
  = Spec.align (words original) (words transcript).
Proof. apply loop_is_alignment. Qed.

Lemma align_correct_prefix (es : list str) :
  forall ts,
    exists rest,
      ts = map word (filter Spec.is_correct (Spec.align es ts)) ++ rest.
Proof.
  induction es as [|e es IH]; intros ts; cbn [Spec.align].
  - exists ts. reflexivity.
  - destruct ts as [|t ts].
    + cbn [filter Spec.is_correct status]. apply (IH []).
    + destruct (str_eqb e t) eqn:E.
      * apply str_eqb_eq in E. subst t.
        destruct (IH ts) as [rest H]. exists rest.
        cbn [filter Spec.is_correct status map word app]. rewrite <- H.
        reflexivity.
      * cbn [filter Spec.is_correct status]. apply (IH (t :: ts)).
Qed.

(** X6. The words marked correct, read in order, are the first words of
    the transcript: the scorer consumes the transcript from its start and
    never skips a transcript word. *)
Theorem correct_words_start_transcript (original transcript : str) :
  exists rest,
    words transcript
    = map word (filter Spec.is_correct
                  (calculateAccuracy original transcript)) ++ rest.
Proof. rewrite loop_is_alignment. apply align_correct_prefix. Qed.

Lemma align_same (es : list str) :
  Spec.align es es = map (fun w => {| word := w; status := correct |}) es.
Proof.
  induction es as [|e es IH]; [reflexivity|].
  cbn [Spec.align map]. rewrite str_eqb_refl, IH. reflexivity.
Qed.

(** X7. A transcript with the same normalized words as the expected line,
    whatever its letter case and punctuation, is correct in every word. *)
Theorem same_words_all_correct (original transcript : str) :
  words transcript = words original ->
  calculateAccuracy original transcript
  = map (fun w => {| word := w; status := correct |}) (words original).
Proof. intros E. rewrite loop_is_alignment, E. apply align_same. Qed.

Lemma same_words_all_correct_witness :
  calculateAccuracy (lit "To be, or not to be...") (lit "to be or NOT to be")
  = map (fun w => {| word := w; status := correct |})
      (words (lit "To be, or not to be...")).
Proof.
  refine (same_words_all_correct (lit "To be, or not to be...")
            (lit "to be or NOT to be") _).
  vm_compute. reflexivity.
Defined.

Lemma align_blocked (es : list str) (t : str) (ts : list str) :
  ~ In t es ->
  Spec.align es (t :: ts)
  = map (fun w => {| word := w; status := incorrect |}) es.
Proof.
  induction es as [|e es IH]; intros H; [reflexivity|].
  cbn [Spec.align map].
  assert (E : str_eqb e t = false).
  { destruct (str_eqb e t) eqn:E; [|reflexivity].
    apply str_eqb_eq in E. subst. exfalso. apply H. left. reflexivity. }
  rewrite E, IH; [reflexivity|].
  intros Hin. apply H. right. exact Hin.
Qed.

Lemma align_nothing (es : list str) :
  Spec.align es []
  = map (fun w => {| word := w; status := incorrect |}) es.
Proof.
  induction es as [|e es IH]; [reflexivity|].
  cbn [Spec.align map]. rewrite IH. reflexivity.
Qed.

(** X8. A transcript that is empty, or whose first word occurs nowhere in
    the expected line, makes every expected word incorrect: nothing is
    ever matched past a transcript word that cannot be matched. *)
Theorem blocked_transcript_all_incorrect (original transcript : str) :
  match words transcript with
  | [] => True
  | first :: _ => ~ In first (words original)
  end ->
  calculateAccuracy original transcript
  = map (fun w => {| word := w; status := incorrect |}) (words original).
Proof.
  intros H. rewrite loop_is_alignment.
  destruct (words transcript) as [|t ts].
  - apply align_nothing.
  - apply align_blocked. exact H.
Qed.

Lemma blocked_transcript_all_incorrect_witness :
  calculateAccuracy (lit "To be or not to be") (lit "um, to be or not to be")
  = map (fun w => {| word := w; status := incorrect |})
      (words (lit "To be or not to be")).
Proof.
  refine (blocked_transcript_all_incorrect (lit "To be or not to be")
            (lit "um, to be or not to be") _).
  vm_compute. intros H.
  repeat (destruct H as [H|H]; [discriminate H|]). exact H.
Defined.

End Alignment.

(** ** Normalized words *)

Section Words.

Lemma match_at_Chr (p : ascii -> bool) (bef aft : str) :
  match_at (Chr p) bef aft
  = match aft with
    | c :: t => if p c then Some (Result bef [c] t []) else None
    | [] => None
    end.
Proof.
  unfold match_at. cbn [run after before caps].
  destruct aft as [|c t]; [reflexivity|].
  destruct (p c); [|reflexivity].
  cbn [after caps]. rewrite (consumed_eq [c]) by reflexivity. reflexivity.
Qed.

(** Replacing every character of a class with nothing filters the class
    out. *)
Lemma replace_class_with_nothing (p : ascii -> bool) (aft : str) :
  forall bef,
    replace_go (Chr p) [] bef aft 0 = filter (fun c => negb (p c)) aft.
Proof.
  induction aft as [|c t IH]; intros bef; cbn [replace_go].
  - rewrite match_at_Chr. reflexivity.
  - rewrite match_at_Chr. cbn [filter]. destruct (p c); cbn [negb].
    + cbn [substitution matched length app]. apply IH.
    + rewrite IH. reflexivity.
Qed.

Lemma star_greedy_some (p : ascii -> bool) cs (aft : str) :
  forall bef,
    exists a b,
      aft = a ++ b
      /\ star_run true p Some bef cs aft = Some (MState (rev a ++ bef) b cs).
Proof.
  induction aft as [|c t IH]; intros bef.
  - exists [], []. split; reflexivity.
  - cbn [star_run]. destruct (p c).
    + destruct (IH (c :: bef)) as [a [b [E H]]].
      exists (c :: a), b. split; [rewrite E; reflexivity|].
      rewrite H. cbn [rev]. rewrite <- app_assoc. reflexivity.
    + exists [], (c :: t). split; reflexivity.
Qed.

Lemma match_at_Plus (p : ascii -> bool) (bef : str) (c : ascii) (t : str) :
  if p c
  then exists a b,
         t = a ++ b
         /\ match_at (Plus p) bef (c :: t) = Some (Result bef (c :: a) b [])
  else match_at (Plus p) bef (c :: t) = None.
Proof.
  unfold match_at. cbn [Plus run after before caps].
  destruct (p c); [|reflexivity].
  destruct (star_greedy_some p [] t (c :: bef)) as [a [b [E H]]].
  exists a, b. split; [exact E|]. rewrite H. cbn [after caps].
  rewrite (consumed_eq (c :: a))
    by (cbn [before rev]; rewrite <- app_assoc; reflexivity).
  reflexivity.
Qed.

(** The pieces between runs of white space hold no white space, and no
    character that the text did not hold. *)
Lemma split_spaces_pieces (Q : ascii -> Prop) (aft : str) :
  Forall Q aft ->
  forall bef skip cur,
    Forall (fun c => Q c /\ isSpace c = false) cur ->
    Forall (Forall (fun c => Q c /\ isSpace c = false))
      (split_go (Plus isSpace) bef aft skip cur).
Proof.
  induction 1 as [|c t Hc Ht IH]; intros bef skip cur Hcur.
  - cbn [split_go]. constructor; [|constructor].
    apply Forall_rev. exact Hcur.
  - cbn [split_go]. destruct skip as [|n]; [|apply IH; exact Hcur].
    pose proof (match_at_Plus isSpace bef c t) as M.
    destruct (isSpace c) eqn:Sc.
    + destruct M as [a [b [_ M]]]. rewrite M. cbn [matched length].
      constructor; [apply Forall_rev; exact Hcur|].
      apply IH. constructor.
    + rewrite M. apply IH. constructor; [split; assumption | exact Hcur].
Qed.

Lemma toLower_not_upper (c : ascii) : isUpper (toLower c) = false.
Proof. destruct c as [[] [] [] [] [] [] [] []]; vm_compute; reflexivity. Qed.

(** X9. Every normalized word is a non-empty run of lowercase letters,
    digits and underscores. *)
Theorem words_normal (s : str) :
  Forall (fun w => w <> [] /\ forallb Spec.isNormalChar w = true) (words s).
Proof.
  unfold words. apply Forall_forall. intros w Hw.
  apply filter_In in Hw. destruct Hw as [Hw Tw].
  split; [destruct w; [discriminate Tw | discriminate]|].
  unfold replace_all in Hw. rewrite replace_class_with_nothing in Hw.
  set (kept := filter
                 (fun c => negb (negb (isWordChar c || isSpace c)))
                 (toLowerCase s)) in Hw.
  assert (K : Forall (fun c => (isWordChar c || isSpace c) = true
                               /\ isUpper c = false) kept).
  { apply Forall_forall. intros c Hc. subst kept.
    apply filter_In in Hc. destruct Hc as [Hin Hk].
    rewrite negb_involutive in Hk. split; [exact Hk|].
    unfold toLowerCase in Hin. apply in_map_iff in Hin.
    destruct Hin as [c' [<- _]]. apply toLower_not_upper. }
  unfold split_re in Hw. destruct kept as [|c t] eqn:Ek.
  - destruct (match_at (Plus isSpace) [] []); [destruct Hw|].
    destruct Hw as [<- | []]. reflexivity.
  - pose proof (split_spaces_pieces _ _ K [] 0 [] (Forall_nil _)) as P.
    rewrite Forall_forall in P. specialize (P w Hw).
    apply forallb_forall. rewrite Forall_forall in P.
    intros x Hx. destruct (P x Hx) as [[H1 H2] H3].
    unfold Spec.isNormalChar. rewrite H2, H3 in *.
    rewrite orb_false_r in H1. rewrite H1. reflexivity.
Qed.

End Words.

(** ** The pronunciation map *)

Section PronunciationMap.

Lemma map_set_keys (m : list (str * str)) (k v k' : str) :
  In k' (map fst (map_set m k v)) <-> In k' (map fst m) \/ k' = k.
Proof.
  induction m as [|[k1 v1] m IH]; cbn [map_set map fst In].
  - split.
    + intros [<- | []]. right. reflexivity.
    + intros [[] | ->]. left. reflexivity.
  - destruct (str_eqb k1 k) eqn:E; cbn [map fst In].
    + apply str_eqb_eq in E. subst k1.
      split; [tauto | intros [H | ->]; [exact H | left; reflexivity]].
    + rewrite IH. tauto.
Qed.

Lemma map_set_NoDup (m : list (str * str)) (k v : str) :
  NoDup (map fst m) -> NoDup (map fst (map_set m k v)).
Proof.
  induction m as [|[k1 v1] m IH]; cbn [map_set map fst]; intros H.
  - constructor; [intros [] | constructor].
  - inversion H as [|? ? Hn Hm]; subst.
    destruct (str_eqb k1 k) eqn:E; cbn [map fst].
    + constructor; assumption.
    + constructor; [|apply IH; exact Hm].
      rewrite map_set_keys. intros [Hin | ->]; [contradiction|].
      rewrite str_eqb_refl in E. discriminate.
Qed.

Lemma fold_left_inv {A B : Type} (P : A -> Prop) (f : A -> B -> A)
    (l : list B) :
  (forall a b, P a -> P (f a b)) -> forall a, P a -> P (fold_left f l a).
Proof.
  intros Hf. induction l as [|b l IH]; intros a Ha; [exact Ha|].
  apply IH. apply Hf. exact Ha.
Qed.

(** X10. The map built from any text has each key once. *)
Theorem pronunciation_keys_unique (pronunciations : str) :
  NoDup (map fst (buildPronunciationMap pronunciations)).
Proof.
  unfold buildPronunciationMap.
  apply (fold_left_inv (fun m => NoDup (map fst m))); [|constructor].
  intros m line Hm.
  destruct (2 <=? length (pieces (split "=" line)));
    [apply map_set_NoDup|]; exact Hm.
Qed.

Lemma lookup_map_set (m : list (str * str)) (k v k' : str) :
  Spec.lookup (map_set m k v) k'
  = if str_eqb k k' then Some v else Spec.lookup m k'.
Proof.
  induction m as [|[k1 v1] m IH]; cbn [map_set Spec.lookup].
  - reflexivity.
  - destruct (str_eqb k1 k) eqn:E; cbn [Spec.lookup].
    + apply str_eqb_eq in E. subst k1. destruct (str_eqb k k'); reflexivity.
    + rewrite IH. destruct (str_eqb k1 k') eqn:E1; [|reflexivity].
      apply str_eqb_eq in E1. subst k1.
      destruct (str_eqb k k') eqn:E2; [|reflexivity].
      apply str_eqb_eq in E2. subst k'. rewrite str_eqb_refl in E.
      discriminate.
Qed.

Lemma dropWhile_nil (p : ascii -> bool) (s : str) :
  dropWhile p s = [] -> forallb p s = true.
Proof.
  induction s as [|c s IH]; [reflexivity|].
  simpl. destruct (p c); [exact IH | discriminate].
Qed.

Lemma blank_all_space (s : str) : trim s = [] -> forallb isSpace s = true.
Proof.
  unfold trim, trimEnd, trimStart. intros H.
  apply (f_equal (@rev ascii)) in H. rewrite rev_involutive in H.
  cbn [rev] in H. apply dropWhile_nil in H.
  assert (E : dropWhile isSpace s = []).
  { pose proof (dropWhile_stops isSpace s) as St.
    destruct (dropWhile isSpace s) as [|c t]; [reflexivity|].
    cbn [starts_with] in St. cbn [rev] in H.
    rewrite forallb_app in H. apply andb_true_iff in H.
    destruct H as [_ H]. simpl in H. rewrite St in H. discriminate. }
  apply dropWhile_nil. exact E.
Qed.

Lemma not_blank (key value : str) :
  truthy (trim (key ++ "="%char :: value)) = true.
Proof.
  destruct (trim (key ++ "="%char :: value)) eqn:E; [|reflexivity].
  apply blank_all_space in E. rewrite forallb_app in E.
  apply andb_true_iff in E. destruct E as [_ E]. discriminate E.
Qed.

(** X11. A last line [key=value] sets the entry of its trimmed key to its
    trimmed value, whatever the lines before it say about that key, and
    leaves the value of every other key as it was. *)
Theorem last_line_wins (text key value : str) :
  includes "=" key = false ->
  includes LF key = false ->
  includes LF value = false ->
  let before := buildPronunciationMap text in
  let after :=
    buildPronunciationMap (text ++ LF :: key ++ "="%char :: value) in
  after = map_set before (trim key) (trim value)
  /\ Spec.lookup after (trim key) = Some (trim value)
  /\ (forall other,
        other <> trim key -> Spec.lookup after other = Spec.lookup before other).
Proof.
  intros Hk Hkl Hvl before after.
  assert (E : after = map_set before (trim key) (trim value)).
  { subst after before. unfold buildPronunciationMap.
    rewrite pieces_split_app, filter_app, fold_left_app.
    assert (Hl : includes LF (key ++ "="%char :: value) = false).
    { unfold includes in *. rewrite existsb_app. cbn [existsb].
      rewrite Hkl, Hvl. reflexivity. }
    rewrite (split_no_separator LF _ Hl). cbn [pieces fst snd filter].
    rewrite not_blank. cbn [fold_left].
    rewrite (split_at_first "=" key value Hk). cbn [fst snd].
    rewrite join_pieces.
    destruct (split "=" value). reflexivity. }
  repeat split.
  - exact E.
  - rewrite E, lookup_map_set, str_eqb_refl. reflexivity.
  - intros other Ho. rewrite E, lookup_map_set.
    destruct (str_eqb (trim key) other) eqn:B; [|reflexivity].
    apply str_eqb_eq in B. congruence.
Qed.

Lemma last_line_wins_witness :
  Spec.lookup
    (buildPronunciationMap
       (lit "Siobhan=Shee-vawn" ++ LF :: lit "Siobhan = Shiv-awn"))
    (lit "Siobhan")
  = Some (lit "Shiv-awn").
Proof.
  exact (proj1 (proj2 (last_line_wins (lit "Siobhan=Shee-vawn")
                         (lit "Siobhan ") (lit " Shiv-awn")
                         eq_refl eq_refl eq_refl))).
Defined.

End PronunciationMap.

Section KeyCase.

Lemma same_word_key (w key key' : str) :
  Spec.same_word key' key = true ->
  Spec.same_word w key' = Spec.same_word w key.
Proof.
  unfold Spec.same_word. intros H. apply str_eqb_eq in H. rewrite H.
  reflexivity.
Qed.

Lemma substitute_words_key (key key' value : str) (s : str) :
  Spec.same_word key' key = true ->
  forall cur,
    Spec.substitute_words key' value cur s
    = Spec.substitute_words key value cur s.
Proof.
  intros H. induction s as [|c t IH]; intros cur;
    cbn [Spec.substitute_words].
  - unfold Spec.flush. destruct cur; [reflexivity|].
    rewrite (same_word_key _ key key' H). reflexivity.
  - rewrite !IH. unfold Spec.flush. destruct cur; [reflexivity|].
    rewrite (same_word_key _ key key' H). reflexivity.
Qed.

(** X12. The letter case of a key plays no part: two keys of word
    characters that are the same word up to case rewrite every dialogue
    in the same way. *)
Theorem key_case_is_irrelevant (key key' value dialogue : str) :
  Spec.plain_key key = true ->
  Spec.plain_key key' = true ->
  Spec.plain_value value = true ->
  Spec.same_word key' key = true ->
  rewriteDialogue [(key', value)] dialogue
  = rewriteDialogue [(key, value)] dialogue.
Proof.
  intros Hk Hk' Hv Hs.
  rewrite !rewriteDialogue_words
    by (cbn [forallb Spec.plain_entry]; rewrite ?Hk, ?Hk', Hv; reflexivity).
  cbn [fold_left Spec.step_words]. unfold Spec.rewrite_words.
  rewrite (substitute_words_key key key' value dialogue Hs). reflexivity.
Qed.

Lemma key_case_is_irrelevant_witness :
  rewriteDialogue [(lit "SIOBHAN", lit "Shiv-awn")] (lit "Dear Siobhan")
  = rewriteDialogue [(lit "siobhan", lit "Shiv-awn")] (lit "Dear Siobhan").
Proof.
  exact (key_case_is_irrelevant (lit "siobhan") (lit "SIOBHAN")
           (lit "Shiv-awn") (lit "Dear Siobhan")
           eq_refl eq_refl eq_refl eq_refl).
Defined.

End KeyCase.

(** ** More on the cursor *)

Section Looping.
Local Open Scope Z_scope.

Variables (loopStartLine loopEndLine : str) (first last : Z).
Hypothesis start_parsed : parseInt loopStartLine = Some first.
Hypothesis end_parsed : parseInt loopEndLine = Some last.
Hypothesis start_positive : 1 <= first.
Hypothesis end_positive : 1 <= last.

Lemma advanceLine_in_loop (prev : Z) :
  advanceLine loopStartLine loopEndLine prev
  = if prev + 1 >=? last then first - 1 else prev + 1.
Proof.
  unfold advanceLine.
  rewrite (parseInt_truthy _ _ start_parsed), (parseInt_truthy _ _ end_parsed).
  rewrite start_parsed, end_parsed. cbn [option_map].
  assert (A : (first - 1 >=? 0) = true) by lia.
  assert (B : (last >? 0) = true) by lia.
  rewrite A, B. reflexivity.
Qed.

Lemma startIdx_in_loop : startIdx loopStartLine = first - 1.
Proof.
  unfold startIdx.
  rewrite start_parsed, (parseInt_truthy _ _ start_parsed).
  assert (A : (first >? 0) = true) by lia. rewrite A. reflexivity.
Qed.

Lemma window_closed (c : Z) :
  first <= last ->
  first - 1 <= c <= last - 1 ->
  first - 1 <= advanceLine loopStartLine loopEndLine c <= last - 1.
Proof.
  intros Hle Hc. rewrite advanceLine_in_loop.
  destruct (c + 1 >=? last) eqn:E; [lia|].
  rewrite Z.geb_leb in E. apply Z.leb_gt in E. lia.
Qed.

Lemma loop_window_iter (n : nat) :
  first <= last ->
  first - 1
  <= Nat.iter n (advanceLine loopStartLine loopEndLine) (startIdx loopStartLine)
  <= last - 1.
Proof.
  intros Hle. induction n as [|n IH]; [simpl | rewrite Nat.iter_succ].
  - rewrite startIdx_in_loop. lia.
  - apply window_closed; assumption.
Qed.

Lemma loop_stuck_iter (n : nat) :
  last <= first ->
  Nat.iter n (advanceLine loopStartLine loopEndLine) (startIdx loopStartLine)
  = first - 1.
Proof.
  intros Hle. induction n as [|n IH]; [simpl | rewrite Nat.iter_succ].
  - apply startIdx_in_loop.
  - rewrite IH, advanceLine_in_loop.
    assert (A : (first - 1 + 1 >=? last) = true) by lia.
    rewrite A. reflexivity.
Qed.

Lemma loop_walk (k : nat) :
  Z.of_nat k <= last - first ->
  Nat.iter k (advanceLine loopStartLine loopEndLine) (first - 1)
  = first - 1 + Z.of_nat k.
Proof.
  induction k as [|k IH]; intros Hk; [simpl | rewrite Nat.iter_succ].
  - lia.
  - rewrite IH by lia. rewrite advanceLine_in_loop.
    assert (A : (first - 1 + Z.of_nat k + 1 >=? last) = false) by lia.
    rewrite A, Nat2Z.inj_succ. lia.
Qed.

Lemma loop_return :
  first <= last ->
  Nat.iter (S (Z.to_nat (last - first)))
    (advanceLine loopStartLine loopEndLine) (first - 1)
  = first - 1.
Proof.
  intros Hle. rewrite Nat.iter_succ. rewrite loop_walk by lia.
  rewrite advanceLine_in_loop, Z2Nat.id by lia.
  assert (A : (first - 1 + (last - first) + 1 >=? last) = true) by lia.
  rewrite A. reflexivity.
Qed.

End Looping.

Section CursorExtras.
Local Open Scope Z_scope.

(** X13. With a loop range [first <= last] of positive line numbers, a
    session that starts on the loop start never leaves the lines of the
    range: after any number of advances the cursor is between
    [first - 1] and [last - 1]. *)
Theorem loop_window (loopStartLine loopEndLine : str) (first last : Z)
    (n : nat) :
  parseInt loopStartLine = Some first ->
  parseInt loopEndLine = Some last ->
  1 <= first ->
  first <= last ->
  first - 1
  <= Nat.iter n (advanceLine loopStartLine loopEndLine) (startIdx loopStartLine)
  <= last - 1.
Proof.
  intros Hs He H1 Hle.
  apply (loop_window_iter _ _ first last); try assumption. lia.
Qed.

Lemma loop_window_witness :
  2 <= Nat.iter 7 (advanceLine (lit "3") (lit "6")) (startIdx (lit "3")) <= 5.
Proof.
  refine (loop_window (lit "3") (lit "6") 3 6 7 _ _ _ _);
    [reflexivity | reflexivity | lia | lia].
Defined.

(** X14. With a loop end that is not above the loop start (both positive),
    a session that starts on the loop start stays on that line: every
    advance gives the loop start again. *)
Theorem loop_stuck (loopStartLine loopEndLine : str) (first last : Z)
    (n : nat) :
  parseInt loopStartLine = Some first ->
  parseInt loopEndLine = Some last ->
  1 <= last ->
  last <= first ->
  Nat.iter n (advanceLine loopStartLine loopEndLine) (startIdx loopStartLine)
  = first - 1.
Proof.
  intros Hs He H1 Hle.
  apply (loop_stuck_iter _ _ first last); try assumption. lia.
Qed.

Lemma loop_stuck_witness :
  Nat.iter 5 (advanceLine (lit "4") (lit "4")) (startIdx (lit "4")) = 3.
Proof.
  refine (loop_stuck (lit "4") (lit "4") 4 4 5 _ _ _ _);
    [reflexivity | reflexivity | lia | lia].
Defined.

(** X15. The loop is a cycle: from the loop start, [k] advances with
    [k <= last - first] give the line [k] further, and the advance after
    [last - first] of them gives the loop start again. *)
Theorem loop_cycle (loopStartLine loopEndLine : str) (first last : Z)
    (k : nat) :
  parseInt loopStartLine = Some first ->
  parseInt loopEndLine = Some last ->
  1 <= first ->
  first <= last ->
  Z.of_nat k <= last - first ->
  Nat.iter k (advanceLine loopStartLine loopEndLine) (first - 1)
  = first - 1 + Z.of_nat k
  /\ Nat.iter (S (Z.to_nat (last - first)))
       (advanceLine loopStartLine loopEndLine) (first - 1)
     = first - 1.
Proof.
  intros Hs He H1 Hle Hk. split.
  - apply (loop_walk _ _ first last); try assumption. lia.
  - apply (loop_return _ _ first last); try assumption. lia.
Qed.

Lemma loop_cycle_witness :
  Nat.iter 2 (advanceLine (lit "3") (lit "6")) 2 = 4
  /\ Nat.iter 4 (advanceLine (lit "3") (lit "6")) 2 = 2.
Proof.
  refine (loop_cycle (lit "3") (lit "6") 3 6 2 _ _ _ _ _);
    [reflexivity | reflexivity | lia | lia | lia].
Defined.

Lemma no_loop_iter (loopStartLine loopEndLine : str) (c : Z) (n : nat) :
  Spec.positive_line loopStartLine && Spec.positive_line loopEndLine = false ->
  Nat.iter n (advanceLine loopStartLine loopEndLine) c = c + Z.of_nat n.
Proof.
  intros H. induction n as [|n IH]; [simpl; lia | rewrite Nat.iter_succ].
  rewrite IH, advanceLine_no_loop by exact H. lia.
Qed.

End CursorExtras.

(** ** More on the turn engine *)

Section ScriptEnd.
Local Open Scope Z_scope.

(** X16. Without an applicable loop range a session that starts on the
    first line walks the script once: after as many advances as the
    script has lines the effect reports the end of the script, schedules
    the stop and starts no turn; when the timer fires the practice is
    over. *)
Theorem script_runs_to_its_end (r : Engine.Render) (s : Engine.Store) :
  Engine.isPracticing r = true ->
  Spec.positive_line (Engine.loopStartLine r)
  && Spec.positive_line (Engine.loopEndLine r) = false ->
  Engine.currentLineIndex r
  = Nat.iter (length (Engine.lines r))
      (advanceLine (Engine.loopStartLine r) (Engine.loopEndLine r)) 0 ->
  let finished :=
    Engine.setTimeout Engine.StopPractice
      (Engine.setStatus (lit "Script finished!") s) in
  Engine.practiceEffect r s = Some finished
  /\ Engine.practicing (Engine.fire Engine.StopPractice finished) = false
  /\ Engine.speechUtteranceRef (Engine.fire Engine.StopPractice finished)
     = None.
Proof.
  intros Hp Hl Hc finished. subst finished.
  unfold Engine.practiceEffect, Engine.processLine. rewrite Hp, Hc.
  rewrite no_loop_iter by exact Hl.
  assert (A : (0 + Z.of_nat (length (Engine.lines r))
               >=? Z.of_nat (length (Engine.lines r))) = true) by lia.
  rewrite A. repeat split.
Qed.

Lemma script_runs_to_its_end_witness :
  option_map Engine.status
    (Engine.practiceEffect
       (Engine.rerender Engine.example_render
          (Engine.setCurrentLineIndex 2 Engine.example_store))
       Engine.example_store)
  = Some (lit "Script finished!").
Proof.
  exact (f_equal (option_map Engine.status)
           (proj1 (script_runs_to_its_end
                     (Engine.rerender Engine.example_render
                        (Engine.setCurrentLineIndex 2 Engine.example_store))
                     Engine.example_store eq_refl eq_refl eq_refl))).
Defined.

(** X17. A loop start beyond the last line is not ignored: starting the
    practice puts the cursor on that line number, and the first run of
    the effect reports the end of the script instead of a turn. *)
Theorem start_beyond_last_line (r : Engine.Render) (s : Engine.Store)
    (first : Z) :
  Engine.lines r <> [] ->
  truthy (Engine.selectedCharacter r) = true ->
  parseInt (Engine.loopStartLine r) = Some first ->
  Z.of_nat (length (Engine.lines r)) < first ->
  let started := Engine.handleStartPractice r s in
  Engine.practicing started = true
  /\ Engine.cursor started = first - 1
  /\ Engine.practiceEffect (Engine.rerender r started) started
     = Some (Engine.setTimeout Engine.StopPractice
               (Engine.setStatus (lit "Script finished!") started)).
Proof.
  intros Hl Hsel Hp Hf started. subst started.
  unfold Engine.handleStartPractice. rewrite Hsel.
  assert (A : (0 <? Z.of_nat (length (Engine.lines r))) = true).
  { destruct (Engine.lines r) as [|x l]; [congruence|].
    cbn [length]. rewrite Nat2Z.inj_succ. apply Z.ltb_lt.
    pose proof (Nat2Z.is_nonneg (length l)). lia. }
  rewrite A. cbn [andb].
  assert (S1 : startIdx (Engine.loopStartLine r) = first - 1).
  { apply startIdx_in_loop; [exact Hp | lia]. }
  rewrite S1. repeat split.
  unfold Engine.practiceEffect, Engine.processLine, Engine.rerender.
  cbn [Engine.isPracticing Engine.currentLineIndex Engine.lines
       Engine.practicing Engine.cursor Engine.setTranscript
       Engine.setCurrentLineIndex Engine.setIsPracticing].
  assert (B : (first - 1 >=? Z.of_nat (length (Engine.lines r))) = true)
    by lia.
  rewrite B. reflexivity.
Qed.

Lemma start_beyond_last_line_witness :
  Engine.cursor
    (Engine.handleStartPractice Engine.late_render Engine.example_store)
  = 8.
Proof.
  refine (proj1 (proj2
    (start_beyond_last_line Engine.late_render Engine.example_store 9
       _ eq_refl eq_refl _))).
  - vm_compute. discriminate.
  - vm_compute. reflexivity.
Defined.

End ScriptEnd.

Section Requests.
Local Open Scope Z_scope.

Ltac engine_all :=
  cbv [Engine.deliver Engine.events_of fold_left Engine.dispatch
       Engine.onerror Engine.onend Engine.onresult Engine.fire Engine.advance
       Engine.handleSkipLine Engine.handleStopPractice
       Engine.stopAllSpeechAndRecognition
       Engine.setRecognition Engine.setStatus Engine.setTimeout
       Engine.setTimers Engine.setRecording Engine.setCurrentLineIndex
       Engine.setUtterance Engine.setTranscript Engine.setAccuracyReport
       Engine.setIsPracticing
       Engine.practicing Engine.cursor Engine.status Engine.transcript
       Engine.accuracyReport Engine.recognitionRef
       Engine.speechUtteranceRef Engine.recording Engine.timers].

(** X18. A skip advances the cursor at once, and the recognition session
    that it aborts still runs its end handler: the abort is not reported
    in the status, but the handler schedules [advanceLine] once more, so
    when that timer fires the cursor is two advances from where it
    was. *)
Theorem skip_while_listening_advances_twice
    (r : Engine.Render) (s : Engine.Store) :
  Engine.isPracticing r = true ->
  let skipped := Engine.handleSkipLine r s in
  let ended :=
    Engine.onend r (Engine.onerror r (lit "aborted") skipped) in
  Engine.cursor skipped
  = advanceLine (Engine.loopStartLine r) (Engine.loopEndLine r)
      (Engine.cursor s)
  /\ Engine.status ended = Engine.status s
  /\ Engine.timers ended = Engine.timers s ++ [Engine.AdvanceLine r]
  /\ Engine.cursor (Engine.fire (Engine.AdvanceLine r) ended)
     = advanceLine (Engine.loopStartLine r) (Engine.loopEndLine r)
         (advanceLine (Engine.loopStartLine r) (Engine.loopEndLine r)
            (Engine.cursor s)).
Proof.
  intros Hp skipped ended. subst ended skipped.
  destruct s as [p c st tr ar rr ur rec tm].
  engine_all. change (str_eqb (lit "aborted") (lit "aborted")) with true.
  cbn [negb]. engine_all. rewrite Hp. engine_all. repeat split.
Qed.

Lemma skip_while_listening_advances_twice_witness :
  Engine.cursor
    (Engine.fire (Engine.AdvanceLine Engine.example_render)
       (Engine.onend Engine.example_render
          (Engine.onerror Engine.example_render (lit "aborted")
             (Engine.handleSkipLine Engine.example_render
                Engine.example_store))))
  = 2.
Proof.
  exact (proj2 (proj2 (proj2
    (skip_while_listening_advances_twice Engine.example_render
       Engine.example_store eq_refl)))).
Defined.

(** X19. In read-along mode, when every pronunciation key is free of
    pattern syntax, so that the rewrite of the dialogue returns a text, a
    line of the user's character is spoken first, with that text; the end
    of the utterance starts the listening and leaves the cursor where it
    is; what is heard becomes the trimmed transcript, and the end of the
    listening schedules the advance. *)
Theorem read_along_user_turn (r : Engine.Render) (s : Engine.Store)
    (line : LineEntry) (spoken heard : str) :
  Engine.isPracticing r = true ->
  Engine.isSpeechSupported r = true ->
  0 <= Engine.currentLineIndex r ->
  nth_error (Engine.lines r) (Z.to_nat (Engine.currentLineIndex r))
  = Some line ->
  character line = Engine.selectedCharacter r ->
  Engine.practiceMode r = read_along ->
  rewriteDialogue (Engine.pronunciationMap r) (dialogue line) = Some spoken ->
  let speaking :=
    Engine.setUtterance
      (Some {| Engine.text := spoken;
               Engine.spokenBy := r;
               Engine.isUserLine := true |})
      (Engine.setTranscript []
         (Engine.setStatus
            (lit "Speaking as " ++ character line ++ lit "...")
            (Engine.setAccuracyReport None s))) in
  let listening := Engine.dispatch speaking Engine.UtteranceEnd in
  let done := Engine.deliver (Engine.events_of (Engine.Heard heard)) listening in
  Engine.practiceEffect r s = Some speaking
  /\ Engine.recognitionRef speaking = Engine.recognitionRef s
  /\ Engine.recognitionRef listening = Some r
  /\ Engine.cursor listening = Engine.cursor s
  /\ Engine.transcript done = trim heard
  /\ Engine.cursor done = Engine.cursor s
  /\ Engine.timers done = Engine.timers s ++ [Engine.AdvanceLine r].
Proof.
  intros Hp Hs H0 Hl Hc Hm Hr speaking listening done.
  subst done listening speaking.
  unfold Engine.practiceEffect, Engine.processLine.
  assert (Hlt : (Z.to_nat (Engine.currentLineIndex r)
                 < length (Engine.lines r))%nat).
  { apply nth_error_Some. rewrite Hl. discriminate. }
  assert (G : (Engine.currentLineIndex r
               >=? Z.of_nat (length (Engine.lines r))) = false) by lia.
  assert (N : (Engine.currentLineIndex r <? 0) = false) by lia.
  rewrite Hp, G, N, Hl, Hr, Hc, Hm, str_eqb_refl. cbn [negb orb].
  split; [reflexivity|].
  destruct s as [p c st tr ar rr ur rec tm].
  engine_all. cbn [Engine.isUserLine Engine.spokenBy andb].
  rewrite Hm. unfold Engine.startRecognition. rewrite Hs. cbn [negb].
  engine_all.
  destruct (Engine.isAccuracyCheckEnabled r); [rewrite Hl|];
    engine_all; rewrite Hp; destruct rec; engine_all; repeat split.
Qed.

Lemma read_along_user_turn_witness :
  option_map Engine.speechUtteranceRef
    (Engine.practiceEffect Engine.read_along_render Engine.example_store)
  = Some (Some {| Engine.text := lit "Hello";
                  Engine.spokenBy := Engine.read_along_render;
                  Engine.isUserLine := true |}).
Proof.
  refine (f_equal (option_map Engine.speechUtteranceRef)
    (proj1
      (read_along_user_turn Engine.read_along_render Engine.example_store
         {| character := lit "ANN"; dialogue := lit "Hello"; direction := [] |}
         (lit "Hello") (lit " hello ")
         eq_refl eq_refl _ eq_refl eq_refl eq_refl eq_refl)));
    discriminate.
Defined.

End Requests.

(** ** More on the settings *)

Section RoundTrip.

Lemma round_trip_normalizes (s current : Settings) :
  loadSettings (saveSettings s) current = Spec.normalized s.
Proof.
  destruct s. unfold loadSettings, saveSettings, stringify, Spec.normalized.
  simpl get. unfold or_default, nullish, json_truthy, Spec.or_one.
  cbn [script pronunciations selectedCharacter characterVoices speechRate
       pitch volume selectedLang isAccuracyCheckEnabled practiceMode
       isRecordAndPlaybackEnabled loopStartLine loopEndLine
       as_bool as_dict].
  rewrite as_mode_name_truthy.
  destruct (Qeq_bool speechRate0 0), (Qeq_bool pitch0 0),
    (Qeq_bool volume0 0), selectedLang0, script0, pronunciations0,
    selectedCharacter0, loopStartLine0, loopEndLine0; reflexivity.
Qed.

(** X20. The load effect restores what the save effect stored in the
    states that no other effect sets: the script, the pronunciations, the
    two toggles, the practice mode and the loop bounds come back as they
    were saved, and the rate, the pitch, the volume and the language tag
    do too, except that a rate, pitch or volume of zero comes back as 1
    and an empty language tag as en-US.  (The selected character and the
    voices of the characters are set again by later effects and are left
    out here.) *)
Theorem settings_round_trip (s current : Settings) :
  let loaded := loadSettings (saveSettings s) current in
  script loaded = script s
  /\ pronunciations loaded = pronunciations s
  /\ speechRate loaded = Spec.or_one (speechRate s)
  /\ pitch loaded = Spec.or_one (pitch s)
  /\ volume loaded = Spec.or_one (volume s)
  /\ selectedLang loaded = or_else (selectedLang s) (lit "en-US")
  /\ isAccuracyCheckEnabled loaded = isAccuracyCheckEnabled s
  /\ practiceMode loaded = practiceMode s
  /\ isRecordAndPlaybackEnabled loaded = isRecordAndPlaybackEnabled s
  /\ loopStartLine loaded = loopStartLine s
  /\ loopEndLine loaded = loopEndLine s.
Proof.
  intros loaded. subst loaded. rewrite round_trip_normalizes.
  repeat split.
Qed.

Lemma selectionCall_reselect (roster : list str) (selected : str) :
  match selectionCall roster selected with
  | Some chosen => chosen
  | None => selected
  end
  = reselect roster selected.
Proof.
  unfold selectionCall, reselect.
  destruct ((0 <? length roster) && negb (arr_includes roster selected))%nat;
    [reflexivity|].
  destruct (length roster =? 0)%nat; reflexivity.
Qed.

Lemma uniqueCharacters_empty : uniqueCharacters [] = [].
Proof. reflexivity. Qed.

Lemma reloadedSelection_reselect (s : Settings) :
  reloadedSelection (saveSettings s)
  = reselect (uniqueCharacters (script s)) [].
Proof.
  unfold reloadedSelection. rewrite round_trip_normalizes.
  cbn [script selectedCharacter Spec.normalized defaults].
  rewrite uniqueCharacters_empty. cbn [selectionCall length Nat.ltb Nat.leb
    Nat.eqb andb].
  destruct (script s) as [|c rest] eqn:E.
  - reflexivity.
  - cbn [str_eqb]. apply selectionCall_reselect.
Qed.

(** X21. The selected character does not survive a page load.  The
    effect on [script] empties the selection in the first commit, after
    the load effect has set it, and chooses again from the loaded script
    after the next render: the selection ends as the first name of the
    roster when the roster has no empty name, and empty when the script
    has no entries, whatever the saved selection was. *)
Theorem reload_selects_first_character (s : Settings) :
  let roster := uniqueCharacters (script s) in
  let selected := reloadedSelection (saveSettings s) in
  selected = reselect roster []
  /\ (forall first rest,
        roster = first :: rest ->
        arr_includes roster [] = false ->
        selected = first)
  /\ (roster = [] -> selected = []).
Proof.
  intros roster selected. subst roster selected.
  rewrite reloadedSelection_reselect. split; [reflexivity|]. split.
  - intros first rest Hr Hn. unfold reselect. rewrite Hn, Hr. reflexivity.
  - intros Hr. rewrite Hr. reflexivity.
Qed.

Lemma reload_selects_first_character_witness :
  selectedCharacter second_selected = lit "BOB"
  /\ reloadedSelection (saveSettings second_selected) = lit "ANN".
Proof.
  split; [reflexivity|].
  refine (proj1 (proj2 (reload_selects_first_character second_selected))
            (lit "ANN") [lit "BOB"] _ _); vm_compute; reflexivity.
Defined.

End RoundTrip.

(** ** Voices *)

Section VoiceAssignment.
Import Voices.

Variables (voices : list Voice) (first : Voice) (others : list Voice).
Hypothesis voices_first : voices = first :: others.
Hypothesis first_uri : truthy (voiceURI first) = true.

Lemma str_eqb_false (a b : str) : a <> b -> str_eqb a b = false.
Proof.
  intros H. destruct (str_eqb a b) eqn:E; [|reflexivity].
  apply str_eqb_eq in E. contradiction.
Qed.

Lemma obj_get_set (obj : list (str * str)) (k v k' : str) :
  obj_get (obj_set obj k v) k'
  = if str_eqb k k' then Some v else obj_get obj k'.
Proof.
  induction obj as [|[k1 v1] obj IH]; cbn [obj_set obj_get].
  - reflexivity.
  - destruct (str_eqb k1 k) eqn:E; cbn [obj_get].
    + apply str_eqb_eq in E. subst k1. destruct (str_eqb k k'); reflexivity.
    + rewrite IH. destruct (str_eqb k1 k') eqn:E1; [|reflexivity].
      apply str_eqb_eq in E1. subst k1.
      destruct (str_eqb k k') eqn:E2; [|reflexivity].
      apply str_eqb_eq in E2. subst k'. rewrite str_eqb_refl in E.
      discriminate.
Qed.

Lemma default_is_kept : kept voices (Some (voiceURI first)) = true.
Proof.
  unfold kept, some_voice. rewrite first_uri, voices_first.
  cbn [existsb]. rewrite str_eqb_refl. reflexivity.
Qed.

Lemma assign_default_get (obj : list (str * str)) (c k : str) :
  obj_get (assign_default voices (voiceURI first) obj c) k
  = if str_eqb c k
    then (if kept voices (obj_get obj c) then obj_get obj c
          else Some (voiceURI first))
    else obj_get obj k.
Proof.
  unfold assign_default, kept.
  destruct (obj_get obj c) as [uri|] eqn:G.
  - rewrite <- negb_andb.
    destruct (truthy uri && some_voice voices uri); cbn [negb].
    + destruct (str_eqb c k) eqn:E; [|reflexivity].
      apply str_eqb_eq in E. subst k. exact G.
    + apply obj_get_set.
  - apply obj_get_set.
Qed.

Lemma fold_assign_get (chars : list str) :
  forall (obj : list (str * str)) (k : str),
    obj_get (fold_left (assign_default voices (voiceURI first)) chars obj) k
    = if arr_includes chars k
      then (if kept voices (obj_get obj k) then obj_get obj k
            else Some (voiceURI first))
      else obj_get obj k.
Proof.
  induction chars as [|c chars IH]; intros obj k; [reflexivity|].
  cbn [fold_left]. rewrite IH, assign_default_get.
  unfold arr_includes. cbn [existsb].
  fold (arr_includes chars k).
  destruct (str_eqb k c) eqn:E.
  - apply str_eqb_eq in E. subst c. rewrite str_eqb_refl. cbn [orb].
    destruct (kept voices (obj_get obj k)) eqn:K.
    + rewrite K. destruct (arr_includes chars k); reflexivity.
    + rewrite default_is_kept. destruct (arr_includes chars k); reflexivity.
  - assert (E' : str_eqb c k = false).
    { destruct (str_eqb c k) eqn:E'; [|reflexivity].
      apply str_eqb_eq in E'. subst c. rewrite str_eqb_refl in E.
      discriminate. }
    rewrite E'. reflexivity.
Qed.

Lemma assigned_voice (characters : list str) (selectedCharacter : str)
    (prev : list (str * str)) (k : str) :
  obj_get (assignDefaultVoices characters selectedCharacter voices prev) k
  = if arr_includes characters k && negb (str_eqb k selectedCharacter)
    then (if kept voices (obj_get prev k) then obj_get prev k
          else Some (voiceURI first))
    else obj_get prev k.
Proof.
  unfold assignDefaultVoices. rewrite voices_first, first_uri. cbn [negb].
  rewrite <- voices_first. rewrite fold_assign_get.
  assert (F : arr_includes
                (filter (fun c => negb (str_eqb c selectedCharacter))
                   characters) k
              = arr_includes characters k
                && negb (str_eqb k selectedCharacter)).
  { unfold arr_includes.
    induction characters as [|c cs IH]; [reflexivity|].
    cbn [filter existsb]. destruct (str_eqb k c) eqn:E.
    - apply str_eqb_eq in E. subst c.
      destruct (str_eqb k selectedCharacter); cbn [negb existsb orb andb].
      + rewrite IH. apply andb_false_r.
      + rewrite str_eqb_refl. reflexivity.
    - destruct (str_eqb c selectedCharacter); cbn [negb existsb orb];
        [|rewrite E]; exact IH. }
  rewrite F. reflexivity.
Qed.

End VoiceAssignment.

Section VoiceExtras.
Import Voices.

(** X22. After the default voice assignment, with a first voice whose URI
    is not empty, every character of the roster but the user's has a
    voice of the list; an assignment that already names a voice of the
    list is kept, and the assignments of all other names are left as they
    were. *)
Theorem every_ai_character_has_a_voice
    (characters : list str) (selectedCharacter : str)
    (first : Voice) (others : list Voice) (prev : list (str * str)) :
  truthy (voiceURI first) = true ->
  let voices := first :: others in
  let assigned :=
    assignDefaultVoices characters selectedCharacter voices prev in
  (forall c,
     In c characters -> c <> selectedCharacter ->
     exists uri,
       obj_get assigned c = Some uri
       /\ truthy uri = true /\ some_voice voices uri = true)
  /\ (forall c uri,
        obj_get prev c = Some uri ->
        truthy uri = true -> some_voice voices uri = true ->
        obj_get assigned c = Some uri)
  /\ (forall k,
        (~ In k characters \/ k = selectedCharacter) ->
        obj_get assigned k = obj_get prev k).
Proof.
  intros Hu voices assigned. subst assigned.
  pose proof (assigned_voice voices first others eq_refl Hu
                characters selectedCharacter prev) as G.
  repeat split.
  - intros c Hin Hne. rewrite G.
    apply arr_includes_In in Hin. rewrite Hin.
    apply str_eqb_false in Hne. rewrite Hne. cbn [negb andb].
    unfold kept. destruct (obj_get prev c) as [uri|] eqn:P.
    + destruct (truthy uri && some_voice voices uri) eqn:K.
      * exists uri. apply andb_true_iff in K. tauto.
      * exists (voiceURI first). repeat split; [exact Hu|].
        unfold some_voice, voices. cbn [existsb]. rewrite str_eqb_refl.
        reflexivity.
    + exists (voiceURI first). repeat split; [exact Hu|].
      unfold some_voice, voices. cbn [existsb]. rewrite str_eqb_refl.
      reflexivity.
  - intros c uri P T S. rewrite G, P. unfold kept. rewrite T, S. cbn [andb].
    destruct (arr_includes characters c && negb (str_eqb c selectedCharacter));
      reflexivity.
  - intros k [Hn | ->]; rewrite G.
    + assert (E : arr_includes characters k = false).
      { destruct (arr_includes characters k) eqn:E; [|reflexivity].
        apply arr_includes_In in E. contradiction. }
      rewrite E. reflexivity.
    + rewrite str_eqb_refl. cbn [negb]. rewrite andb_false_r. reflexivity.
Qed.

Lemma every_ai_character_has_a_voice_witness :
  obj_get
    (assignDefaultVoices [lit "ANN"; lit "BOB"] (lit "ANN")
       [ {| voiceURI := lit "urn:voice:1"; lang := lit "en-US";
            name := lit "One" |} ]
       [(lit "BOB", lit "urn:voice:1")])
    (lit "BOB")
  = Some (lit "urn:voice:1").
Proof.
  exact (proj1 (proj2 (every_ai_character_has_a_voice
                         [lit "ANN"; lit "BOB"] (lit "ANN")
                         {| voiceURI := lit "urn:voice:1";
                            lang := lit "en-US"; name := lit "One" |}
                         [] [(lit "BOB", lit "urn:voice:1")] eq_refl))
           (lit "BOB") (lit "urn:voice:1") eq_refl eq_refl eq_refl).
Defined.

Lemma startsWith_filter (allVoices : list Voice) (primary region : str) :
  includes "-" primary = false ->
  handleVoicesChanged allVoices (primary ++ "-"%char :: region)
  = filter (fun v => startsWith primary (lang v)) allVoices.
Proof.
  intros H. unfold handleVoicesChanged.
  rewrite (split_at_first "-" primary region H). reflexivity.
Qed.

(** X23. The voices listed for a language tag depend on its primary
    subtag only: two tags with the same text before the first hyphen get
    the same voices, each of a language that starts with that text. *)
Theorem voices_by_primary_subtag (allVoices : list Voice)
    (primary region1 region2 : str) :
  includes "-" primary = false ->
  handleVoicesChanged allVoices (primary ++ "-"%char :: region1)
  = handleVoicesChanged allVoices (primary ++ "-"%char :: region2)
  /\ Forall (fun v => startsWith primary (lang v) = true)
       (handleVoicesChanged allVoices (primary ++ "-"%char :: region1)).
Proof.
  intros H. rewrite !startsWith_filter by exact H. split; [reflexivity|].
  apply Forall_forall. intros v Hv. apply filter_In in Hv. tauto.
Qed.

Lemma voices_by_primary_subtag_witness :
  handleVoicesChanged
    [ {| voiceURI := lit "a"; lang := lit "en-GB"; name := lit "A" |};
      {| voiceURI := lit "b"; lang := lit "fr-FR"; name := lit "B" |} ]
    (lit "en-US")
  = handleVoicesChanged
      [ {| voiceURI := lit "a"; lang := lit "en-GB"; name := lit "A" |};
        {| voiceURI := lit "b"; lang := lit "fr-FR"; name := lit "B" |} ]
      (lit "en-IN").
Proof.
  exact (proj1 (voices_by_primary_subtag
                  [ {| voiceURI := lit "a"; lang := lit "en-GB";
                       name := lit "A" |};
                    {| voiceURI := lit "b"; lang := lit "fr-FR";
                       name := lit "B" |} ]
                  (lit "en") (lit "US") (lit "IN") eq_refl)).
Defined.

End VoiceExtras.

(** ** The analysis text *)

Section Analysis.

Lemma replace_line_feeds (aft : str) :
  forall bef,
    replace_go (Chr (isChar LF)) (lit "<br />") bef aft 0
    = flat_map (fun c => if isChar LF c then lit "<br />" else [c]) aft.
Proof.
  induction aft as [|c t IH]; intros bef; cbn [replace_go flat_map].
  - rewrite match_at_Chr. reflexivity.
  - rewrite match_at_Chr. destruct (isChar LF c).
    + cbn [matched length]. rewrite IH. reflexivity.
    + rewrite IH. reflexivity.
Qed.

Lemma breaks_no_line_feed (text : str) :
  includes LF
    (flat_map (fun c => if isChar LF c then lit "<br />" else [c]) text)
  = false.
Proof.
  unfold includes. induction text as [|c t IH]; [reflexivity|].
  cbn [flat_map]. rewrite existsb_app, IH, orb_false_r.
  destruct (isChar LF c) eqn:Hc; [reflexivity|].
  cbn [existsb]. rewrite Hc. reflexivity.
Qed.

(** X24. The analysis text is shown with each line feed replaced by a
    line break tag and every other character as it is, so what is shown
    holds no line feed. *)
Theorem analysisHtml_breaks (text : str) :
  analysisHtml text
  = flat_map (fun c => if isChar LF c then lit "<br />" else [c]) text
  /\ includes LF (analysisHtml text) = false.
Proof.
  assert (E : analysisHtml text
              = flat_map (fun c => if isChar LF c then lit "<br />" else [c])
                  text).
  { unfold analysisHtml, replace_all. apply replace_line_feeds. }
  split; [exact E|]. rewrite E. apply breaks_no_line_feed.
Qed.

End Analysis.
